(** * Patches views: synchronisation of a patches view with its source collection

    A shallow embedding of [fiftyone/core/patches.py].  The classes
    [_PatchView] and [_PatchesView] are embedded as functions in a small
    state-and-exception monad over a world that holds the root dataset of the
    source collection, the patches dataset and the trace of the calls made to
    the collection layer. *)

From stdpp Require Import gmap strings list fin_maps.

Module Patches.

(** ** Data model *)

Abbreviation field := string.
Abbreviation oid := string.

(** An embedded label document: its own id, its content, its tags. *)
Record Label := mkLabel {
  label_id : oid;
  label_body : string;
  label_tags : list string
}.

#[global] Instance Label_eq_dec : EqDecision Label.
Proof. solve_decision. Defined.

(** The value of a label field of a sample: a single label
    ([fol.Detection], [fol.Classification], ...) or a list-type label
    ([fol.Detections], ...), which wraps a list of labels under the attribute
    its type names ([_LABEL_LIST_FIELD]).  A missing value
    ([None]) is the absence of the key in the sample's field map. *)
Inductive LabelValue :=
| Single (l : Label)
| Multi (attr : string) (ls : list Label).

#[global] Instance LabelValue_eq_dec : EqDecision LabelValue.
Proof. solve_decision. Defined.

(** The declared label type of a field, as far as the code looks at it:
    [issubclass(label_type, fol._LABEL_LIST_FIELDS)]. *)
Inductive LabelType :=
| ScalarType
| ListType (_LABEL_LIST_FIELD : string).

Definition is_list_field (t : LabelType) : bool :=
  match t with ListType _ => true | ScalarType => false end.

(** Mongo-serialised values that travel between the two collections:
    [None], one label document, a bare list of label documents, or the
    container document of a list-type label (the document that holds the list
    under the key [_LABEL_LIST_FIELD]). *)
Inductive Doc :=
| DNone
| DLabel (l : Label)
| DArray (ls : list Label)
| DContainer (attr : string) (ls : list Label).

#[global] Instance Doc_eq_dec : EqDecision Doc.
Proof. solve_decision. Defined.

(** A sample of the source collection's root dataset. *)
Record Sample := mkSample {
  sid : oid;
  sfields : gmap field LabelValue
}.

(** A patch record of the patches dataset: its own id, the id of the source
    sample it was extracted from ([sample_id]) and its label fields. *)
Record Patch := mkPatch {
  pid : oid;
  sample_id : oid;
  pfields : gmap field LabelValue
}.

(** Calls that reach the collection layer, in the order they are made. *)
Inductive Event :=
| BaseSampleSave (p : oid)
| BaseViewSave (fields : option (list field))
| BaseEditLabelTags (label_fields : option (list field))
| BaseSetValues (field_name : list string)
| SetLabelsById (f : field) (sample_ids : list oid) (docs : list Doc)
| DeleteLabels (ids : gset oid) (f : field)
| SourceEditLabelTags (ids : list oid) (f : field).

Record World := mkWorld {
  src_root : list Sample;
  patches_dataset : list Patch;
  calls : list Event
}.

(** Exceptions the embedded code can raise. *)
Inductive Exn :=
| TypeError
| KeyError.

(** ** The monad *)

Definition M (A : Type) : Type := World -> Exn + (A * World).

Definition ret {A} (a : A) : M A := fun w => inr (a, w).

Definition bind {A B} (m : M A) (k : A -> M B) : M B :=
  fun w => match m w with
           | inl e => inl e
           | inr (a, w') => k a w'
           end.

Definition raise {A} (e : Exn) : M A := fun _ => inl e.

Notation "'let!' x ':=' m 'in' k" := (bind m (fun x => k))
  (at level 10, x pattern, m at level 100, k at level 200).
Notation "'do!' m 'in' k" := (bind m (fun _ => k))
  (at level 10, m at level 100, k at level 200).

(** [for x in xs: body x] *)
Fixpoint for_each {A} (xs : list A) (body : A -> M unit) : M unit :=
  match xs with
  | [] => ret tt
  | x :: xs' => do! body x in for_each xs' body
  end.

Definition emit (e : Event) : M unit :=
  fun w => inr (tt, mkWorld (src_root w) (patches_dataset w) (calls w ++ [e])).

Definition get_patches : M (list Patch) := fun w => inr (patches_dataset w, w).
Definition get_root : M (list Sample) := fun w => inr (src_root w, w).

Definition modify_patches (g : list Patch -> list Patch) : M unit :=
  fun w => inr (tt, mkWorld (src_root w) (g (patches_dataset w)) (calls w)).

Definition modify_root (g : list Sample -> list Sample) : M unit :=
  fun w => inr (tt, mkWorld (g (src_root w)) (patches_dataset w) (calls w)).

(** ** The collection layer

    The query engine, the store and the schema service live in other modules
    of the library; the definitions of this section give them the behaviour
    the specification describes. *)

(** A field path such as [ground_truth.detections.id], by components. *)
Abbreviation Path := (list string).

(** Modelled from the spec: the field-path resolver
    [_get_label_field_path(field, subfield)] of the collection layer, which is
    not part of this file.  The path descends through the list attribute of a
    list-type label and ends in the sub-attribute, when one is asked for. *)
Definition _get_label_field_path
    (ty : LabelType) (f : field) (subfield : option string) : Path :=
  [f] ++ match ty with ListType a => [a] | ScalarType => [] end
      ++ match subfield with Some sub => [sub] | None => [] end.

(** [path.rsplit(".", 1)[0]] *)
Definition rsplit1_head (p : Path) : Path :=
  match p with
  | [] | [_] => p
  | _ => removelast p
  end.

(** [field_name.split(".", 1)[0]] *)
Definition split1_head (p : Path) : string :=
  match p with
  | [] => ""
  | c :: _ => c
  end.

(** Modelled from the spec: [sample._doc.field_to_mongo(field)], the
    Mongo-serialised value of a field of a record. *)
Definition field_to_mongo (flds : gmap field LabelValue) (f : field) : Doc :=
  match flds !! f with
  | None => DNone
  | Some (Single l) => DLabel l
  | Some (Multi a ls) => DContainer a ls
  end.

(** [doc[key]] on a serialised value: only a container has keys; [None] is
    not subscriptable. *)
Definition getitem (d : Doc) (key : string) : M Doc :=
  match d with
  | DContainer a ls => if decide (a = key) then ret (DArray ls) else raise KeyError
  | DLabel _ => raise KeyError
  | DNone | DArray _ => raise TypeError
  end.

(** Modelled from the spec: the aggregation [foa.Values(path, _raw=True)] on
    one record: the raw value found at the path. *)
Definition raw_value (p : Path) (flds : gmap field LabelValue) : Doc :=
  match p with
  | [f] => field_to_mongo flds f
  | [f; a] =>
      match flds !! f with
      | Some (Multi a' ls) => if decide (a = a') then DArray ls else DNone
      | _ => DNone
      end
  | _ => DNone
  end.

(** Modelled from the spec: the aggregation [foa.Values(id_path, unwind=True)]
    on one record: the label ids found at the path, flattened; a record
    without a value at the path contributes none. *)
Definition unwound_ids (p : Path) (flds : gmap field LabelValue) : list oid :=
  match p with
  | [f; i] =>
      match flds !! f with
      | Some (Single l) => if decide (i = "id") then [label_id l] else []
      | _ => []
      end
  | [f; a; i] =>
      match flds !! f with
      | Some (Multi a' ls) =>
          if decide (a = a' /\ i = "id") then label_id <$> ls else []
      | _ => []
      end
  | _ => []
  end.

(** The source collection: the schema of its dataset and its own stages.  A
    view shows the samples its stages keep (a choice that may look at the
    whole dataset, as sorting and limiting do) and, in them, the labels its
    filters keep; it is evaluated anew each time it is read. *)
Record SourceCollection := mkSource {
  source_schema : field -> LabelType;
  keep_sample : list Sample -> Sample -> bool;
  keep_label : field -> Label -> bool
}.

Definition filter_value (keep : Label -> bool) (v : LabelValue) : option LabelValue :=
  match v with
  | Single l => if keep l then Some v else None
  | Multi a ls => Some (Multi a (List.filter keep ls))
  end.

Definition view_sample (sc : SourceCollection) (s : Sample) : Sample :=
  mkSample (sid s) (map_imap (fun f v => filter_value (keep_label sc f) v) (sfields s)).

Definition source_view (sc : SourceCollection) (root : list Sample) : list Sample :=
  view_sample sc <$> List.filter (keep_sample sc root) root.

(** Modelled from the spec: [values(path, unwind=True)] over a list of
    records. *)
Definition values_unwound (p : Path) (docs : list (gmap field LabelValue)) : list oid :=
  concat (unwound_ids p <$> docs).


Definition labels_of (d : Doc) : list Label :=
  match d with
  | DLabel l => [l]
  | DArray ls => ls
  | DNone | DContainer _ _ => []
  end.

Definition replace_label (d l : Label) : Label :=
  if decide (label_id l = label_id d) then d else l.

Definition map_value (g : Label -> Label) (v : LabelValue) : LabelValue :=
  match v with
  | Single l => Single (g l)
  | Multi a ls => Multi a (g <$> ls)
  end.

(** Applies [g] to the labels of field [f] of the samples that [sel] selects. *)
Definition map_field (sel : Sample -> bool) (f : field) (g : Label -> Label)
    (root : list Sample) : list Sample :=
  (fun s => if sel s then mkSample (sid s) (alter (map_value g) f (sfields s)) else s)
    <$> root.

Definition write_label (f : field) (sample : oid) (root : list Sample) (d : Label)
    : list Sample :=
  map_field (fun s => bool_decide (sid s = sample)) f (replace_label d) root.

Definition write_doc (f : field) (root : list Sample) (sd : oid * Doc) : list Sample :=
  foldl (write_label f sd.1) root (labels_of sd.2).

(** Modelled from the spec: the effect of
    [_set_labels_by_id(field, sample_ids, docs)] on the dataset of the
    collection it is called on: for each sample id and its documents in turn,
    the labels of the field of that sample whose ids are present are
    overwritten in place; a label is never moved to another sample. *)
Definition apply_set_labels (f : field) (sample_ids : list oid) (docs : list Doc)
    (root : list Sample) : list Sample :=
  foldl (write_doc f) root (zip sample_ids docs).

Definition delete_in_value (ids : gset oid) (v : LabelValue) : option LabelValue :=
  match v with
  | Single l => if decide (label_id l ∈ ids) then None else Some v
  | Multi a ls => Some (Multi a (List.filter (fun l => bool_decide (label_id l ∉ ids)) ls))
  end.

(** Modelled from the spec: the effect of [delete_labels(ids, fields)] on a
    dataset: the label documents with these ids leave the field, in every
    sample. *)
Definition apply_delete_labels (ids : gset oid) (f : field) (root : list Sample)
    : list Sample :=
  (fun s => mkSample (sid s)
              (partial_alter (fun o => o ≫= delete_in_value ids) f (sfields s)))
    <$> root.

(** A tag edit, as [tag_labels] and [untag_labels] pass it: a function on the
    tags of a label. *)
Definition edit_tags (edit_fcn : list string -> list string) (l : Label) : Label :=
  mkLabel (label_id l) (label_body l) (edit_fcn (label_tags l)).

(** Modelled from the spec: the effect on the dataset of the base
    [_edit_label_tags(edit_fcn, label_fields=[field])] called on the view
    [select_labels(ids, fields=field)] of the source collection: the edit
    reaches the labels of the field that the source collection shows and
    whose ids are selected. *)
Definition apply_edit_selected (sc : SourceCollection)
    (edit_fcn : list string -> list string)
    (ids : list oid) (f : field) (root : list Sample) : list Sample :=
  map_field (keep_sample sc root) f
    (fun l => if keep_label sc f l && bool_decide (label_id l ∈ ids)
              then edit_tags edit_fcn l else l)
    root.

(** ** The patches view *)

(** The state of a [_PatchesView] object, with the methods it inherits: the
    effect on the patches dataset of the base-class writes that the overrides
    call through [super()]. *)
Record PatchesView := mkView {
  _source_collection : SourceCollection;
  _get_label_field_type : field -> LabelType;
  _label_fields : list field;
  _stages : list Patch -> list Patch;
  super_sample_save : Patch -> list Patch -> list Patch;
  super_save : option (list field) -> list Patch -> list Patch;
  super_edit_label_tags :
    (list string -> list string) -> option (list field) -> list Patch -> list Patch
}.

(** The [fields] argument of [save] and [_edit_label_tags]: [None], one field
    name, or a list of field names. *)
Inductive FieldsArg :=
| NoFields
| FieldName (f : field)
| FieldList (fs : list field).

(** [if etau.is_str(fields): fields = [fields]] *)
Definition normalize_fields (a : FieldsArg) : option (list field) :=
  match a with
  | NoFields => None
  | FieldName f => Some [f]
  | FieldList fs => Some fs
  end.

(** [l in self._label_fields] *)
Definition is_label_field (v : PatchesView) (l : field) : bool :=
  bool_decide (l ∈ _label_fields v).

(** [self._label_fields] if [fields is None], else
    [[l for l in fields if l in self._label_fields]] *)
Definition sync_fields (v : PatchesView) (fields : option (list field)) : list field :=
  match fields with
  | None => _label_fields v
  | Some fs => List.filter (is_label_field v) fs
  end.

Section Collaborators.
Variable v : PatchesView.

(** [self._source_collection._set_labels_by_id(field, sample_ids, docs)] *)
Definition _set_labels_by_id (f : field) (sample_ids : list oid) (docs : list Doc)
    : M unit :=
  do! emit (SetLabelsById f sample_ids docs) in
  modify_root (apply_set_labels f sample_ids docs).

(** [self._source_collection._dataset.delete_labels(ids=ids, fields=field)] *)
Definition delete_labels (ids : gset oid) (f : field) : M unit :=
  do! emit (DeleteLabels ids f) in
  modify_root (apply_delete_labels ids f).

(** [self._source_collection.values(path, unwind=True)] *)
Definition source_values (p : Path) : M (list oid) :=
  let! root := get_root in
  ret (values_unwound p (sfields <$> source_view (_source_collection v) root)).

(** [self.values(path, unwind=True)], over the view *)
Definition view_values (p : Path) : M (list oid) :=
  let! ps := get_patches in
  ret (values_unwound p (pfields <$> _stages v ps)).

(** [view._edit_label_tags(edit_fcn, label_fields=[field])] for [view] the
    result of [self._source_collection.select_labels(ids=ids, fields=field)] *)
Definition edit_selected_labels (edit_fcn : list string -> list string) (ids : list oid)
    (f : field) : M unit :=
  do! emit (SourceEditLabelTags ids f) in
  modify_root (apply_edit_selected (_source_collection v) edit_fcn ids f).
End Collaborators.


(** ** The code of [patches.py] *)

Section PatchesView.
Variable v : PatchesView.

(** [_PatchesView._sync_source_sample_field] *)
Definition _sync_source_sample_field (sample : Patch) (f : field) : M unit :=
  let label_type := _get_label_field_type v f in
  let doc := field_to_mongo (pfields sample) f in
  let! doc :=
    match label_type with
    | ListType _LABEL_LIST_FIELD => getitem doc _LABEL_LIST_FIELD
    | ScalarType => ret doc
    end in
  _set_labels_by_id f [sample_id sample] [doc].

(** [_PatchesView._sync_source_sample] *)
Definition _sync_source_sample (sample : Patch) : M unit :=
  for_each (_label_fields v) (fun f => _sync_source_sample_field sample f).

(** [_PatchView.save]: the base write-back, then the sync through the view
    the patch belongs to. *)
Definition PatchView_save (sample : Patch) : M unit :=
  do! (do! emit (BaseSampleSave (pid sample)) in
       modify_patches (super_sample_save v sample)) in
  _sync_source_sample sample.

(** [_PatchesView._sync_source_fcn] *)
Definition _sync_source_fcn (sync_fcn : list oid -> field -> M unit)
    (fields : list field) : M unit :=
  for_each fields (fun f =>
    let id_path := _get_label_field_path (_get_label_field_type v f) f (Some "id") in
    let! ids := view_values v id_path in
    sync_fcn ids f).

(** [_PatchesView._edit_label_tags] *)
Definition _edit_label_tags (edit_fcn : list string -> list string)
    (label_fields : FieldsArg)
    : M unit :=
  let label_fields := normalize_fields label_fields in
  do! (do! emit (BaseEditLabelTags label_fields) in
       modify_patches (super_edit_label_tags v edit_fcn label_fields)) in
  let fields := sync_fields v label_fields in
  let sync_fcn := fun ids f => edit_selected_labels v edit_fcn ids f in
  _sync_source_fcn sync_fcn fields.

(** [_PatchesView._sync_source_view_field]: the aggregation runs over the
    view, [self.aggregate]. *)
Definition _sync_source_view_field (f : field) : M unit :=
  let label_path := _get_label_field_path (_get_label_field_type v f) f None in
  let! ps := get_patches in
  let sample_ids := sample_id <$> _stages v ps in
  let docs := (fun p => raw_value label_path (pfields p)) <$> _stages v ps in
  _set_labels_by_id f sample_ids docs.

(** [_PatchesView.set_values]; [write] is the effect of the base
    [set_values(field_name, *args, **kwargs)] on the patches dataset. *)
Definition set_values (field_name : Path) (write : list Patch -> list Patch)
    : M unit :=
  do! (do! emit (BaseSetValues field_name) in
       modify_patches write) in
  let f := split1_head field_name in
  if is_label_field v f then _sync_source_view_field f else ret tt.

(** [_PatchesView._sync_source_root_field]: the aggregation runs over
    [self._patches_dataset]. *)
Definition _sync_source_root_field (f : field) : M unit :=
  let id_path := _get_label_field_path (_get_label_field_type v f) f (Some "id") in
  let label_path := rsplit1_head id_path in
  let! ps := get_patches in
  let sample_ids := sample_id <$> ps in
  let docs := (fun p => raw_value label_path (pfields p)) <$> ps in
  let label_ids := values_unwound id_path (pfields <$> ps) in
  do! _set_labels_by_id f sample_ids docs in
  let src_id_path :=
    _get_label_field_path (source_schema (_source_collection v) f) f (Some "id") in
  let! src_ids := source_values v src_id_path in
  let delete_ids : gset oid := list_to_set src_ids ∖ list_to_set label_ids in
  if bool_decide (delete_ids ≠ ∅) then delete_labels delete_ids f else ret tt.

(** [_PatchesView._sync_source_root] *)
Definition _sync_source_root (fields : list field) : M unit :=
  for_each fields (fun f => _sync_source_root_field f).

(** [_PatchesView.save] *)
Definition save (fields : FieldsArg) : M unit :=
  let fields := normalize_fields fields in
  do! (do! emit (BaseViewSave fields) in
       modify_patches (super_save v fields)) in
  let fields := sync_fields v fields in
  _sync_source_root fields.
End PatchesView.


(** ** Reading the collections *)

Definition value_labels (val : LabelValue) : list Label :=
  match val with
  | Single l => [l]
  | Multi _ ls => ls
  end.

(** The labels of field [f] in a record's field map. *)
Definition field_labels (f : field) (flds : gmap field LabelValue) : list Label :=
  match flds !! f with
  | Some val => value_labels val
  | None => []
  end.


(** The labels of field [f] anywhere in [root]. *)
Definition root_labels (f : field) (root : list Sample) : list Label :=
  concat ((fun s => field_labels f (sfields s)) <$> root).


(** The serialised value of a field without the container of a list-type
    label: the list of label documents itself. *)
Definition unwrapped (d : Doc) : Doc :=
  match d with
  | DContainer _ ls => DArray ls
  | _ => d
  end.

(** A record holds, in field [f], a value of the declared label type: a
    list-type field holds its container, a scalar field one label or
    nothing. *)
Definition field_well_typed (ty : LabelType) (flds : gmap field LabelValue) (f : field)
    : bool :=
  match ty, flds !! f with
  | ListType a, Some (Multi a' _) => bool_decide (a = a')
  | ScalarType, Some (Single _) => true
  | ScalarType, None => true
  | _, _ => false
  end.

(** The world after within-world steps: new root, same patches, more calls. *)
Definition after_source (w : World) (root : list Sample) (es : list Event) : World :=
  mkWorld root (patches_dataset w) (calls w ++ es).


(** ** A small dataset

    The scenario of the specification: sample [s1] holds the detections [a]
    and [b] in field [F] and a classification [c] in field [C]; the patches
    [p_a] and [p_b] were extracted from [F]. *)

Definition ex_a : Label := mkLabel "a" "cat" [].
Definition ex_b : Label := mkLabel "b" "dog" [].
Definition ex_c : Label := mkLabel "c" "indoor" [].
Definition ex_a' : Label := mkLabel "a" "lion" [].

Definition ex_s1 : Sample :=
  mkSample "s1" {[ "F" := Multi "detections" [ex_a; ex_b]; "C" := Single ex_c ]}.

Definition ex_p_a : Patch := mkPatch "p_a" "s1" {[ "F" := Multi "detections" [ex_a] ]}.
Definition ex_p_b : Patch := mkPatch "p_b" "s1" {[ "F" := Multi "detections" [ex_b] ]}.
(** [p_a] after an edit of its label. *)
Definition ex_p_a' : Patch := mkPatch "p_a" "s1" {[ "F" := Multi "detections" [ex_a'] ]}.
(** A record with a classification. *)
Definition ex_p_c : Patch := mkPatch "p_c" "s1" {[ "C" := Single ex_c ]}.

Definition ex_schema (f : field) : LabelType :=
  if decide (f = "F") then ListType "detections" else ScalarType.

(** The source collection is the dataset itself: no stages. *)
Definition ex_dataset : SourceCollection :=
  mkSource ex_schema (fun _ _ => true) (fun _ _ => true).

Definition ex_replace (p : Patch) (ps : list Patch) : list Patch :=
  (fun q => if decide (pid q = pid p) then p else q) <$> ps.

(** A [PatchesView] on field [F], with stages [stages]. *)
Definition ex_view (sc : SourceCollection) (stages : list Patch -> list Patch)
    : PatchesView :=
  mkView sc ex_schema ["F"] stages ex_replace (fun _ ps => ps) (fun _ _ ps => ps).

(** A view that tracks the scalar field [C]. *)
Definition ex_view_C : PatchesView :=
  mkView ex_dataset ex_schema ["C"] (fun ps => ps) ex_replace
    (fun _ ps => ps) (fun _ _ ps => ps).

Definition ex_world : World := mkWorld [ex_s1] [ex_p_a; ex_p_b] [].



(** The root dataset after single-sample sync of the fields [fs]. *)
Definition root_after_sample_sync (sample : Patch) (fs : list field)
    (root : list Sample) : list Sample :=
  foldl (fun r f =>
           apply_set_labels f [sample_id sample]
             [unwrapped (field_to_mongo (pfields sample) f)] r)
        root fs.


(** ** The quantities of full-root sync

    Names for what [_sync_source_root_field] computes on the way, as
    functions of the patches dataset [ps] and of the root dataset. *)

Section RootSync.
Variable v : PatchesView.
Variable f : field.

(** [id_path] of the patches view and of the source collection. *)
Definition id_path : Path :=
  _get_label_field_path (_get_label_field_type v f) f (Some "id").
Definition src_id_path : Path :=
  _get_label_field_path (source_schema (_source_collection v) f) f (Some "id").

(** The three results of the aggregation over [ps]. *)
Definition agg_sample_ids (ps : list Patch) : list oid := sample_id <$> ps.
Definition agg_docs (ps : list Patch) : list Doc :=
  (fun p => raw_value (rsplit1_head id_path) (pfields p)) <$> ps.
Definition agg_label_ids (ps : list Patch) : list oid :=
  values_unwound id_path (pfields <$> ps).

(** The label ids of the field that the source collection shows. *)
Definition source_label_ids (root : list Sample) : list oid :=
  values_unwound src_id_path (sfields <$> source_view (_source_collection v) root).

(** The root dataset after the update phase. *)
Definition root_updated (ps : list Patch) (root : list Sample) : list Sample :=
  apply_set_labels f (agg_sample_ids ps) (agg_docs ps) root.

(** [delete_ids], read after the update phase. *)
Definition root_delete_ids (ps : list Patch) (root : list Sample) : gset oid :=
  list_to_set (source_label_ids (root_updated ps root)) ∖ list_to_set (agg_label_ids ps).

(** The root dataset and the calls made, after both phases. *)
Definition root_synced (ps : list Patch) (root : list Sample) : list Sample :=
  if bool_decide (root_delete_ids ps root ≠ ∅)
  then apply_delete_labels (root_delete_ids ps root) f (root_updated ps root)
  else root_updated ps root.

Definition root_sync_calls (ps : list Patch) (root : list Sample) : list Event :=
  SetLabelsById f (agg_sample_ids ps) (agg_docs ps) ::
  if bool_decide (root_delete_ids ps root ≠ ∅)
  then [DeleteLabels (root_delete_ids ps root) f]
  else [].
End RootSync.

(** The same for a list of fields, one after the other. *)
Definition roots_synced (v : PatchesView) (fs : list field) (ps : list Patch)
    (root : list Sample) : list Sample :=
  foldl (fun r f => root_synced v f ps r) root fs.

Fixpoint roots_sync_calls (v : PatchesView) (fs : list field) (ps : list Patch)
    (root : list Sample) : list Event :=
  match fs with
  | [] => []
  | f :: fs' =>
      root_sync_calls v f ps root ++ roots_sync_calls v fs' ps (root_synced v f ps root)
  end.

(** The label ids of field [f] anywhere in the root dataset. *)
Definition root_label_ids (f : field) (root : list Sample) : list oid :=
  label_id <$> root_labels f root.


(** A second sample, which holds a label with the id [b] too, and a source
    collection that is a view of the dataset: it selects [s1] only. *)
Definition ex_b2 : Label := mkLabel "b" "wolf" [].
Definition ex_s2 : Sample := mkSample "s2" {[ "F" := Multi "detections" [ex_b2] ]}.

Definition ex_select_s1 : SourceCollection :=
  mkSource ex_schema (fun _ s => bool_decide (sid s = "s1")) (fun _ _ => true).

(** The patches dataset after the patch [p_b] was deleted. *)
Definition ex_world_deleted : World := mkWorld [ex_s1] [ex_p_a] [].
Definition ex_world_hidden : World := mkWorld [ex_s1; ex_s2] [ex_p_a] [].


(** Every sample of the root dataset holds, in field [f], a value of the type
    the source collection declares for it. *)
Definition root_well_typed (sc : SourceCollection) (f : field) (root : list Sample)
    : Prop :=
  Forall (fun s => field_well_typed (source_schema sc f) (sfields s) f = true) root.


(** The labels of field [f] that a source collection shows. *)
Definition shown_labels (sc : SourceCollection) (f : field) (root : list Sample)
    : list Label :=
  concat ((fun s => List.filter (keep_label sc f) (field_labels f (sfields s)))
            <$> List.filter (keep_sample sc root) root).

(** A source collection without stages: the dataset itself. *)
Definition is_dataset (sc : SourceCollection) : Prop :=
  (forall root s, keep_sample sc root s = true) /\ (forall f l, keep_label sc f l = true).


(** ** The quantities of tag propagation and of per-field view sync *)

(** The label ids of field [f] in the view: the patches its stages show. *)
Definition view_label_ids (v : PatchesView) (f : field) (ps : list Patch) : list oid :=
  values_unwound (id_path v f) (pfields <$> _stages v ps).

Definition root_tag_synced (v : PatchesView) (edit_fcn : list string -> list string)
    (ps : list Patch) (fs : list field) (root : list Sample) : list Sample :=
  foldl (fun r f =>
           apply_edit_selected (_source_collection v) edit_fcn (view_label_ids v f ps) f r)
        root fs.

Definition tag_sync_calls (v : PatchesView) (ps : list Patch) (fs : list field)
    : list Event :=
  (fun f => SourceEditLabelTags (view_label_ids v f ps) f) <$> fs.

(** The field a call on the source collection is scoped to. *)
Definition event_field (e : Event) : option field :=
  match e with
  | SetLabelsById f _ _ | DeleteLabels _ f | SourceEditLabelTags _ f => Some f
  | _ => None
  end.

(** Tagging: [tag_labels(t)] passes the edit that adds the tag. *)
Definition add_tag (t : string) (tags : list string) : list string :=
  if bool_decide (t ∈ tags) then tags else tags ++ [t].

(** A view with the stage [limit(1)]. *)
Definition ex_limit1 (ps : list Patch) : list Patch := take 1 ps.


(** ** The update phase as one map over the dataset *)

(** Applies to every label of field [f] the function that [G] gives for the
    id of its sample. *)
Definition map_labels (f : field) (G : oid -> Label -> Label) (root : list Sample)
    : list Sample :=
  (fun s => mkSample (sid s) (alter (map_value (G (sid s))) f (sfields s))) <$> root.

(** The writes of a batch, one label document at a time, and what they make
    of a label of the sample [y]. *)
Definition flat_writes (ws : list (oid * Doc)) : list (oid * Label) :=
  concat ((fun w => (fun d => (w.1, d)) <$> labels_of w.2) <$> ws).

Definition compose_writes (W : list (oid * Label)) (y : oid) (l : Label) : Label :=
  foldl (fun acc w => if bool_decide (y = w.1) then replace_label w.2 acc else acc) l W.

(** A source collection that is a view: it shows the samples that hold the
    most detections (sorting by their number and limiting to the first). *)
Definition ex_d : Label := mkLabel "d" "bird" [].
Definition ex_e : Label := mkLabel "e" "fish" [].

Definition ex_s1_big : Sample :=
  mkSample "s1" {[ "F" := Multi "detections" [ex_a; ex_b; ex_c] ]}.
Definition ex_s3 : Sample := mkSample "s3" {[ "F" := Multi "detections" [ex_d; ex_e] ]}.

Definition ex_most_detections : SourceCollection :=
  mkSource ex_schema
    (fun root s =>
       forallb (fun s' => length (field_labels "F" (sfields s'))
                          <=? length (field_labels "F" (sfields s)))%nat root)
    (fun _ _ => true).

(** The patches of [b] and [c] were deleted; the one of [a] is left. *)
Definition ex_world_sorted : World := mkWorld [ex_s1_big; ex_s3] [ex_p_a] [].


(** ** The id index: [_get_ids_map] *)

(** What the aggregation [foa.Values(id_path)] returns for one record when it
    is not unwound: nothing, the id of the label of a scalar field, or the
    list of the ids of the labels of a list-type field. *)
Inductive IdsValue :=
| VNone
| VId (i : oid)
| VIds (ids : list oid).

(** Modelled from the spec: the aggregation [foa.Values(id_path)] on one
    record. *)
Definition ids_value (p : Path) (flds : gmap field LabelValue) : IdsValue :=
  match p with
  | [f; i] =>
      match flds !! f with
      | Some (Single l) => if decide (i = "id") then VId (label_id l) else VNone
      | _ => VNone
      end
  | [f; a; i] =>
      match flds !! f with
      | Some (Multi a' ls) =>
          if decide (a = a' /\ i = "id") then VIds (label_id <$> ls) else VNone
      | _ => VNone
      end
  | _ => VNone
  end.

(** [for c in s] on a string: its characters, as strings. *)
Definition chars (s : string) : list string :=
  (fun c => String c EmptyString) <$> String.list_ascii_of_string s.

(** The body of the loop of the list branch: [if not _label_ids: continue],
    then [ids_map[label_id] = sample_id] for every element. *)
Definition ids_map_list_step (ids_map : gmap oid oid) (row : oid * IdsValue)
    : gmap oid oid :=
  let sample_id := row.1 in
  match row.2 with
  | VNone => ids_map
  | VIds _label_ids =>
      foldl (fun m label_id => <[label_id := sample_id]> m) ids_map _label_ids
  | VId s => foldl (fun m label_id => <[label_id := sample_id]> m) ids_map (chars s)
  end.

(** The body of the loop of the scalar branch: [if not label_id: continue],
    then [ids_map[label_id] = sample_id]; a list is not hashable. *)
Definition ids_map_scalar_step (ids_map : gmap oid oid) (row : oid * IdsValue)
    : Exn + gmap oid oid :=
  let sample_id := row.1 in
  match row.2 with
  | VNone => inr ids_map
  | VId label_id =>
      if decide (label_id = "") then inr ids_map
      else inr (<[label_id := sample_id]> ids_map)
  | VIds [] => inr ids_map
  | VIds (_ :: _) => inl TypeError
  end.

(** A loop whose body can raise. *)
Fixpoint fold_exn {A B} (body : A -> B -> Exn + A) (acc : A) (xs : list B) : Exn + A :=
  match xs with
  | [] => inr acc
  | x :: xs' =>
      match body acc x with
      | inl e => inl e
      | inr acc' => fold_exn body acc' xs'
      end
  end.

Definition lift_exn {A} (r : Exn + A) : M A :=
  fun w => match r with inl e => inl e | inr a => inr (a, w) end.

(** [_PatchesView._get_ids_map]; [sample_ids] are the ids of the patches
    themselves, [foa.Values("id")], aggregated over the view. *)
Definition _get_ids_map (v : PatchesView) (f : field) : M (gmap oid oid) :=
  let label_type := _get_label_field_type v f in
  let id_path := _get_label_field_path label_type f (Some "id") in
  let! ps := get_patches in
  let sample_ids := pid <$> _stages v ps in
  let label_ids := (fun p => ids_value id_path (pfields p)) <$> _stages v ps in
  if is_list_field label_type
  then ret (foldl ids_map_list_step ∅ (zip sample_ids label_ids))
  else lift_exn (fold_exn ids_map_scalar_step ∅ (zip sample_ids label_ids)).

(** Whether a patch holds the label id [i] in field [f], as the view's id
    aggregation sees it. *)
Definition holds_id (v : PatchesView) (f : field) (i : oid) (p : Patch) : bool :=
  bool_decide (i ∈ unwound_ids (id_path v f) (pfields p)).


(** A view whose second patch was extracted from another sample; a record
    whose classification has the empty id. *)
Definition ex_p_b3 : Patch := mkPatch "p_b3" "s3" {[ "F" := Multi "detections" [ex_b] ]}.
Definition ex_p_empty : Patch := mkPatch "p_0" "s1" {[ "C" := Single (mkLabel "" "none" []) ]}.


(** ** What sync leaves alone *)

(** The values of field [f], sample by sample. *)
Definition field_column (f : field) (root : list Sample) : list (option LabelValue) :=
  (fun s => sfields s !! f) <$> root.


(** The field of an update call. *)
Definition update_field (e : Event) : option field :=
  match e with
  | SetLabelsById f _ _ => Some f
  | _ => None
  end.




(** An evaluation patch of a false positive: a prediction without a ground
    truth; the view tracks both fields, both of a list type. *)
Definition ex_p_fp : Patch := mkPatch "p_fp" "s1" {[ "F" := Multi "detections" [ex_a] ]}.

Definition ex_eval_view : PatchesView :=
  mkView ex_dataset (fun _ => ListType "detections") ["F"; "gt"] (fun ps => ps)
    ex_replace (fun _ ps => ps) (fun _ _ ps => ps).




(** ** Facts about the store *)

Lemma field_labels_alter f f' g flds :
  field_labels f (alter (map_value g) f' flds) =
  if decide (f = f') then g <$> field_labels f flds else field_labels f flds.
Proof.
  unfold field_labels. destruct (decide (f = f')) as [->|Hne].
  - rewrite lookup_alter_eq. destruct (flds !! f') as [[l|a ls]|]; reflexivity.
  - rewrite lookup_alter_ne by congruence. reflexivity.
Qed.




(** ** Single-sample sync *)

Lemma sync_sample_field_list v sample f w a ls :
  _get_label_field_type v f = ListType a ->
  pfields sample !! f = Some (Multi a ls) ->
  _sync_source_sample_field v sample f w =
  inr (tt, after_source w
             (apply_set_labels f [sample_id sample] [DArray ls] (src_root w))
             [SetLabelsById f [sample_id sample] [DArray ls]]).
Proof.
  intros Hty Hval. unfold _sync_source_sample_field, field_to_mongo.
  rewrite Hty, Hval. unfold bind, getitem. simpl.
  destruct (decide (a = a)); [reflexivity|contradiction].
Qed.

Lemma sync_sample_field_scalar v sample f w :
  _get_label_field_type v f = ScalarType ->
  _sync_source_sample_field v sample f w =
  inr (tt, after_source w
             (apply_set_labels f [sample_id sample]
                [field_to_mongo (pfields sample) f] (src_root w))
             [SetLabelsById f [sample_id sample] [field_to_mongo (pfields sample) f]]).
Proof.
  intros Hty. unfold _sync_source_sample_field. rewrite Hty. reflexivity.
Qed.

Lemma sync_sample_field_well_typed v sample f w :
  field_well_typed (_get_label_field_type v f) (pfields sample) f = true ->
  _sync_source_sample_field v sample f w =
  inr (tt, after_source w
             (apply_set_labels f [sample_id sample]
                [unwrapped (field_to_mongo (pfields sample) f)] (src_root w))
             [SetLabelsById f [sample_id sample]
                [unwrapped (field_to_mongo (pfields sample) f)]]).
Proof.
  unfold field_well_typed. intros Hwt.
  destruct (_get_label_field_type v f) as [|a] eqn:Hty.
  - rewrite sync_sample_field_scalar by done. unfold field_to_mongo.
    destruct (pfields sample !! f) as [[l|a ls]|]; try done.
  - destruct (pfields sample !! f) as [[l|a' ls]|] eqn:Hval; try done.
    apply bool_decide_eq_true in Hwt as <-.
    rewrite (sync_sample_field_list _ _ _ _ a ls) by done.
    unfold field_to_mongo. rewrite Hval. reflexivity.
Qed.

(** A list-type field without a value in the patch: [None] is not
    subscriptable, the sync raises and no call is made. *)
Lemma sync_sample_field_missing v sample f w a :
  _get_label_field_type v f = ListType a ->
  pfields sample !! f = None ->
  _sync_source_sample_field v sample f w = inl TypeError.
Proof.
  intros Hty Hval. unfold _sync_source_sample_field, field_to_mongo.
  rewrite Hty, Hval. reflexivity.
Qed.


(** C4. Single-sample sync forwards a document that depends on the declared
    label type of the field: for a list-type field whose value in the patch
    is the container of that type, the call [_set_labels_by_id] receives the
    inner list of label documents, not the container; for a scalar field it
    receives the serialised value of the field as it is, which is the bare
    label document when the patch holds a label. *)
Theorem sync_sample_field_document v sample f w :
  (forall a ls,
      _get_label_field_type v f = ListType a ->
      pfields sample !! f = Some (Multi a ls) ->
      field_to_mongo (pfields sample) f = DContainer a ls /\
      exists w',
        _sync_source_sample_field v sample f w = inr (tt, w') /\
        calls w' = calls w ++ [SetLabelsById f [sample_id sample] [DArray ls]]) /\
  (_get_label_field_type v f = ScalarType ->
   (forall l, pfields sample !! f = Some (Single l) ->
              field_to_mongo (pfields sample) f = DLabel l) /\
   exists w',
     _sync_source_sample_field v sample f w = inr (tt, w') /\
     calls w' =
     calls w ++ [SetLabelsById f [sample_id sample] [field_to_mongo (pfields sample) f]]).
Proof.
  split.
  - intros a ls Hty Hval. split.
    + unfold field_to_mongo. rewrite Hval. reflexivity.
    + eexists. split; [by eapply sync_sample_field_list|reflexivity].
  - intros Hty. split.
    + intros l Hval. unfold field_to_mongo. rewrite Hval. reflexivity.
    + eexists. split; [by apply sync_sample_field_scalar|reflexivity].
Qed.

Lemma sync_sample_field_document_witness :
  (exists w',
      _sync_source_sample_field (ex_view ex_dataset id) ex_p_a' "F" ex_world = inr (tt, w') /\
      calls w' = [SetLabelsById "F" ["s1"] [DArray [ex_a']]]) /\
  (exists w',
      _sync_source_sample_field ex_view_C ex_p_c "C" ex_world = inr (tt, w') /\
      calls w' = [SetLabelsById "C" ["s1"] [DLabel ex_c]]).
Proof.
  split.
  - apply (proj1 (sync_sample_field_document (ex_view ex_dataset id) ex_p_a' "F" ex_world)
             "detections" [ex_a']); reflexivity.
  - apply (proj2 (sync_sample_field_document ex_view_C ex_p_c "C" ex_world)).
    reflexivity.
Defined.


Lemma replace_label_id d l : label_id (replace_label d l) = label_id l.
Proof. unfold replace_label. destruct (decide _); congruence. Qed.






Lemma after_source_nil w : after_source w (src_root w) [] = w.
Proof. destruct w. unfold after_source. simpl. by rewrite app_nil_r. Qed.

Lemma after_source_twice w r1 es1 r2 es2 :
  after_source (after_source w r1 es1) r2 es2 = after_source w r2 (es1 ++ es2).
Proof. unfold after_source. simpl. by rewrite app_assoc. Qed.









(** ** Full-root sync *)

Lemma sync_root_field_run v f w :
  _sync_source_root_field v f w =
  inr (tt, after_source w
             (root_synced v f (patches_dataset w) (src_root w))
             (root_sync_calls v f (patches_dataset w) (src_root w))).
Proof.
  set (ps := patches_dataset w). set (root := src_root w).
  transitivity
    ((if bool_decide (root_delete_ids v f ps root ≠ ∅)
      then delete_labels (root_delete_ids v f ps root) f
      else ret tt)
       (after_source w (root_updated v f ps root)
          [SetLabelsById f (agg_sample_ids ps) (agg_docs v f ps)])).
  { reflexivity. }
  unfold root_synced, root_sync_calls.
  destruct (bool_decide (root_delete_ids v f ps root ≠ ∅)).
  - unfold delete_labels, bind, emit, modify_root, after_source.
    cbn [src_root patches_dataset calls]. by rewrite <- app_assoc.
  - reflexivity.
Qed.

Lemma sync_root_run v fs w :
  _sync_source_root v fs w =
  inr (tt, after_source w
             (roots_synced v fs (patches_dataset w) (src_root w))
             (roots_sync_calls v fs (patches_dataset w) (src_root w))).
Proof.
  unfold _sync_source_root. revert w. induction fs as [|f fs IH]; intros w.
  - simpl. unfold ret. by rewrite after_source_nil.
  - simpl. unfold bind at 1. rewrite sync_root_field_run, IH.
    by rewrite after_source_twice.
Qed.

Lemma save_run v a w :
  save v a w =
  inr (tt, let ps := super_save v (normalize_fields a) (patches_dataset w) in
           let fs := sync_fields v (normalize_fields a) in
           mkWorld (roots_synced v fs ps (src_root w)) ps
             (calls w ++ BaseViewSave (normalize_fields a) ::
                roots_sync_calls v fs ps (src_root w))).
Proof.
  unfold save. unfold bind at 1. simpl. rewrite sync_root_run.
  unfold after_source. simpl. by rewrite <- app_assoc.
Qed.


(** Writes keep the label ids of every field; deletions remove ids from the
    field they are scoped to, in every sample, and touch no other field. *)

Lemma root_label_ids_map_field f' sel f g root :
  (forall l, label_id (g l) = label_id l) ->
  root_label_ids f' (map_field sel f g root) = root_label_ids f' root.
Proof.
  intros Hg. unfold root_label_ids, root_labels, map_field.
  change (label_id <$> ?l) with (List.map label_id l).
  rewrite !List.concat_map. f_equal.
  change (List.map ?h ?l) with (h <$> l).
  rewrite <- !list_fmap_compose. apply list_fmap_ext. intros _ s _. simpl.
  destruct (sel s); simpl; [|reflexivity].
  rewrite field_labels_alter. destruct (decide (f' = f)); [|reflexivity].
  rewrite <- list_fmap_compose. apply list_fmap_ext. intros _ l _. apply Hg.
Qed.

Lemma root_label_ids_write_doc f' f root sd :
  root_label_ids f' (write_doc f root sd) = root_label_ids f' root.
Proof.
  unfold write_doc. revert root.
  induction (labels_of sd.2) as [|d ds IH]; intros root; simpl; [reflexivity|].
  rewrite IH. unfold write_label. apply root_label_ids_map_field.
  intros l. apply replace_label_id.
Qed.

Lemma root_label_ids_set_labels f' f sample_ids docs root :
  root_label_ids f' (apply_set_labels f sample_ids docs root) = root_label_ids f' root.
Proof.
  unfold apply_set_labels. revert root.
  induction (zip sample_ids docs) as [|sd sds IH]; intros root; simpl; [reflexivity|].
  rewrite IH. apply root_label_ids_write_doc.
Qed.

Lemma field_labels_delete ids f' f flds :
  field_labels f' (partial_alter (fun o => o ≫= delete_in_value ids) f flds) =
  if decide (f' = f)
  then List.filter (fun l => bool_decide (label_id l ∉ ids)) (field_labels f' flds)
  else field_labels f' flds.
Proof.
  unfold field_labels. destruct (decide (f' = f)) as [->|Hne].
  - rewrite lookup_partial_alter_eq.
    destruct (flds !! f) as [[l|a ls]|]; simpl; try reflexivity.
    destruct (decide (label_id l ∈ ids)) as [Hin|Hin].
    + rewrite bool_decide_eq_false_2 by (intros Hn; by apply Hn). reflexivity.
    + rewrite bool_decide_eq_true_2 by done. reflexivity.
  - rewrite lookup_partial_alter_ne by congruence. reflexivity.
Qed.

Lemma filter_concat {A} (P : A -> bool) (ls : list (list A)) :
  List.filter P (concat ls) = concat (List.filter P <$> ls).
Proof.
  induction ls as [|l ls IH]; simpl; [reflexivity|].
  by rewrite List.filter_app, IH.
Qed.

Lemma root_labels_delete ids f' f root :
  root_labels f' (apply_delete_labels ids f root) =
  if decide (f' = f)
  then List.filter (fun l => bool_decide (label_id l ∉ ids)) (root_labels f' root)
  else root_labels f' root.
Proof.
  unfold root_labels, apply_delete_labels.
  rewrite <- list_fmap_compose.
  destruct (decide (f' = f)) as [->|Hne].
  - rewrite filter_concat, <- list_fmap_compose. f_equal.
    apply list_fmap_ext. intros _ s _. simpl. rewrite field_labels_delete.
    destruct (decide (f = f)); [reflexivity|contradiction].
  - f_equal. apply list_fmap_ext. intros _ s _. simpl. rewrite field_labels_delete.
    destruct (decide (f' = f)); [contradiction|reflexivity].
Qed.

Lemma deleted_ids_absent ids f root i :
  i ∈ ids -> i ∉ root_label_ids f (apply_delete_labels ids f root).
Proof.
  intros Hi Hin. unfold root_label_ids in Hin. rewrite root_labels_delete in Hin.
  destruct (decide (f = f)); [|contradiction].
  apply list_elem_of_fmap in Hin as (l & -> & Hl).
  apply list_elem_of_In, List.filter_In in Hl as [_ Hl].
  apply bool_decide_eq_true in Hl. contradiction.
Qed.

Lemma delete_keeps_absent ids f' f root i :
  i ∉ root_label_ids f' root -> i ∉ root_label_ids f' (apply_delete_labels ids f root).
Proof.
  intros Hi Hin. apply Hi. unfold root_label_ids in *. rewrite root_labels_delete in Hin.
  destruct (decide (f' = f)); [|exact Hin].
  apply list_elem_of_fmap in Hin as (l & -> & Hl).
  apply list_elem_of_In, List.filter_In in Hl as [Hl _].
  apply list_elem_of_fmap_2. by apply list_elem_of_In.
Qed.


(** What a collection shows is in its dataset. *)

Lemma unwound_ids_in_field ty f flds i :
  i ∈ unwound_ids (_get_label_field_path ty f (Some "id")) flds ->
  i ∈ label_id <$> field_labels f flds.
Proof.
  unfold _get_label_field_path, field_labels. destruct ty as [|a]; simpl.
  - destruct (flds !! f) as [[l|a ls]|]; simpl; try (by intros ?%elem_of_nil).
    repeat case_decide; try done; by intros ?%elem_of_nil.
  - destruct (flds !! f) as [[l|a' ls]|]; simpl; try (by intros ?%elem_of_nil).
    repeat case_decide; try done; by intros ?%elem_of_nil.
Qed.

Lemma field_labels_view_sample sc f s :
  field_labels f (sfields (view_sample sc s)) =
  List.filter (keep_label sc f) (field_labels f (sfields s)).
Proof.
  unfold field_labels, view_sample. simpl. rewrite map_lookup_imap.
  destruct (sfields s !! f) as [[l|a ls]|]; simpl; try reflexivity.
  destruct (keep_label sc f l); reflexivity.
Qed.

Lemma elem_of_concat {A} (x : A) (ls : list (list A)) :
  x ∈ concat ls <-> exists l, x ∈ l /\ l ∈ ls.
Proof.
  induction ls as [|l ls IH]; simpl.
  - split; [by intros ?%elem_of_nil|by intros (l & _ & ?%elem_of_nil)].
  - rewrite elem_of_app, IH. split.
    + intros [H|(l' & H1 & H2)]; [exists l; split; [done|by left]|].
      exists l'. split; [done|by right].
    + intros (l' & H1 & [->|H2]%elem_of_cons); [by left|right; eauto].
Qed.

Lemma elem_of_values_unwound p (docs : list (gmap field LabelValue)) i :
  i ∈ values_unwound p docs <-> exists flds, flds ∈ docs /\ i ∈ unwound_ids p flds.
Proof.
  unfold values_unwound. rewrite elem_of_concat. split.
  - intros (l & Hi & Hl). apply list_elem_of_fmap in Hl as (flds & -> & Hf). eauto.
  - intros (flds & Hf & Hi). exists (unwound_ids p flds). split; [done|].
    by apply list_elem_of_fmap_2.
Qed.

Lemma elem_of_root_label_ids f root i :
  i ∈ root_label_ids f root <->
  exists s, s ∈ root /\ i ∈ label_id <$> field_labels f (sfields s).
Proof.
  unfold root_label_ids, root_labels. split.
  - intros (l & -> & Hl)%list_elem_of_fmap.
    apply elem_of_concat in Hl as (ls & Hl & Hls).
    apply list_elem_of_fmap in Hls as (s & -> & Hs).
    exists s. split; [done|]. by apply list_elem_of_fmap_2.
  - intros (s & Hs & (l & -> & Hl)%list_elem_of_fmap).
    apply list_elem_of_fmap_2, elem_of_concat.
    exists (field_labels f (sfields s)). split; [done|].
    by apply (list_elem_of_fmap_2 (fun s => field_labels f (sfields s))).
Qed.

Lemma source_label_ids_in_root v f root i :
  i ∈ source_label_ids v f root -> i ∈ root_label_ids f root.
Proof.
  unfold source_label_ids, src_id_path, source_view.
  intros (flds & Hf & Hi)%elem_of_values_unwound.
  apply list_elem_of_fmap in Hf as (s' & -> & Hs').
  apply list_elem_of_fmap in Hs' as (s & -> & Hs).
  apply list_elem_of_In, List.filter_In in Hs as [Hs _].
  apply unwound_ids_in_field in Hi. rewrite field_labels_view_sample in Hi.
  apply elem_of_root_label_ids. exists s. split; [by apply list_elem_of_In|].
  apply list_elem_of_fmap in Hi as (l & -> & Hl).
  apply list_elem_of_In, List.filter_In in Hl as [Hl _].
  apply list_elem_of_fmap_2. by apply list_elem_of_In.
Qed.


(** C6. When the delete-id set that full-root sync computes, the ids the
    source collection shows minus the ids of the patches dataset, is empty,
    the sync returns normally and its only call is the update: no
    [delete_labels] call is issued. *)
Theorem empty_delete_ids_skip_delete v f w :
  root_delete_ids v f (patches_dataset w) (src_root w) = ∅ ->
  exists w',
    _sync_source_root_field v f w = inr (tt, w') /\
    calls w' =
      calls w ++ [SetLabelsById f (agg_sample_ids (patches_dataset w))
                    (agg_docs v f (patches_dataset w))] /\
    src_root w' = root_updated v f (patches_dataset w) (src_root w).
Proof.
  intros Hempty. rewrite sync_root_field_run. eexists. split; [reflexivity|].
  unfold after_source, root_sync_calls, root_synced. simpl.
  rewrite bool_decide_eq_false_2 by (intros Hn; by apply Hn). done.
Qed.

Lemma empty_delete_ids_skip_delete_witness :
  exists w',
    _sync_source_root_field (ex_view ex_dataset id) "F" ex_world = inr (tt, w') /\
    calls w' = [SetLabelsById "F" ["s1"; "s1"] [DArray [ex_a]; DArray [ex_b]]] /\
    src_root w' = [ex_s1].
Proof.
  destruct (empty_delete_ids_skip_delete (ex_view ex_dataset id) "F" ex_world)
    as (w' & Hrun & Hcalls & Hroot).
  - by vm_compute.
  - exists w'. split; [exact Hrun|]. split; [exact Hcalls|].
    rewrite Hroot. by vm_compute.
Defined.

(** C9. In one full-root sync of a field the update call comes first and the
    deletion phase after it: the trace is extended by the [_set_labels_by_id]
    call, followed by at most one [delete_labels] call.  The ids that the
    deletion phase subtracts come from the same read of the patches dataset
    as the documents of the update, the ids of the source collection are read
    on the dataset as the update left it, and the patches dataset itself is
    unchanged. *)
Theorem update_precedes_deletion v f w :
  exists w' tail,
    _sync_source_root_field v f w = inr (tt, w') /\
    calls w' =
      calls w ++ SetLabelsById f (sample_id <$> patches_dataset w)
                   (agg_docs v f (patches_dataset w)) :: tail /\
    (tail = [] \/
     tail =
       [DeleteLabels
          (list_to_set
             (source_label_ids v f
                (apply_set_labels f (sample_id <$> patches_dataset w)
                   (agg_docs v f (patches_dataset w)) (src_root w)))
           ∖ list_to_set (agg_label_ids v f (patches_dataset w))) f]) /\
    patches_dataset w' = patches_dataset w.
Proof.
  rewrite sync_root_field_run. eexists. eexists. split; [reflexivity|].
  unfold after_source, root_sync_calls. simpl. split; [reflexivity|].
  split; [|reflexivity].
  destruct (bool_decide _); [right|left]; reflexivity.
Qed.


(** C10. In the deletion phase of full-root sync the existing label ids are
    read through the source collection, so every id of the delete set is one
    that the source collection shows; the bulk delete is issued on the
    underlying root dataset: when the delete set is not empty, no sample of
    the root dataset, shown by the source collection or not, keeps a label with
    one of these ids in the field. *)
Theorem delete_reads_view_writes_root v f w :
  (forall i,
      i ∈ root_delete_ids v f (patches_dataset w) (src_root w) ->
      i ∈ source_label_ids v f (root_updated v f (patches_dataset w) (src_root w))) /\
  (root_delete_ids v f (patches_dataset w) (src_root w) ≠ ∅ ->
   exists w',
     _sync_source_root_field v f w = inr (tt, w') /\
     last (calls w') =
       Some (DeleteLabels (root_delete_ids v f (patches_dataset w) (src_root w)) f) /\
     src_root w' =
       apply_delete_labels (root_delete_ids v f (patches_dataset w) (src_root w)) f
         (root_updated v f (patches_dataset w) (src_root w)) /\
     forall i s,
       i ∈ root_delete_ids v f (patches_dataset w) (src_root w) ->
       s ∈ src_root w' ->
       i ∉ label_id <$> field_labels f (sfields s)).
Proof.
  split.
  - intros i Hi. unfold root_delete_ids in Hi.
    apply elem_of_difference in Hi as [Hi _]. by apply elem_of_list_to_set in Hi.
  - intros Hne. rewrite sync_root_field_run. eexists. split; [reflexivity|].
    unfold after_source, root_sync_calls, root_synced. simpl.
    rewrite bool_decide_eq_true_2 by done.
    split; [|split; [reflexivity|]].
    + match goal with
      | |- last (?l ++ [?a; ?b]) = _ => change (l ++ [a; b]) with (l ++ [a] ++ [b])
      end.
      rewrite app_assoc. apply last_snoc.
    + intros i s Hi Hs Hin.
      eapply deleted_ids_absent; [exact Hi|].
      apply elem_of_root_label_ids. eauto.
Qed.

Lemma delete_reads_view_writes_root_witness :
  exists w',
    _sync_source_root_field (ex_view ex_select_s1 id) "F" ex_world_hidden = inr (tt, w') /\
    last (calls w') = Some (DeleteLabels {["b"]} "F") /\
    src_root w' =
      [mkSample "s1" {[ "F" := Multi "detections" [ex_a]; "C" := Single ex_c ]};
       mkSample "s2" {[ "F" := Multi "detections" [] ]}].
Proof.
  destruct (proj2 (delete_reads_view_writes_root (ex_view ex_select_s1 id) "F"
                     ex_world_hidden))
    as (w' & Hrun & Hlast & Hroot & _).
  - by vm_compute.
  - exists w'. split; [exact Hrun|]. split.
    + rewrite Hlast. reflexivity.
    + rewrite Hroot. by vm_compute.
Defined.


(** Writes and deletions keep the root dataset well typed. *)

Lemma field_well_typed_alter ty g f' flds f :
  field_well_typed ty (alter (map_value g) f' flds) f = field_well_typed ty flds f.
Proof.
  unfold field_well_typed. destruct (decide (f = f')) as [->|Hne].
  - rewrite lookup_alter_eq. destruct (flds !! f') as [[l|a ls]|]; reflexivity.
  - rewrite lookup_alter_ne by congruence. reflexivity.
Qed.

Lemma field_well_typed_delete ty ids f' flds f :
  field_well_typed ty flds f = true ->
  field_well_typed ty (partial_alter (fun o => o ≫= delete_in_value ids) f' flds) f = true.
Proof.
  unfold field_well_typed. destruct (decide (f = f')) as [->|Hne].
  - rewrite lookup_partial_alter_eq.
    destruct (flds !! f') as [[l|a ls]|]; simpl; try done.
    destruct (decide (label_id l ∈ ids)); destruct ty; done.
  - rewrite lookup_partial_alter_ne by congruence. done.
Qed.

Lemma root_well_typed_map_field sc f sel f' g root :
  root_well_typed sc f root -> root_well_typed sc f (map_field sel f' g root).
Proof.
  unfold root_well_typed, map_field. intros Hwt. apply Forall_fmap.
  eapply Forall_impl; [exact Hwt|]. intros s Hs. simpl.
  destruct (sel s); [|exact Hs]. simpl. by rewrite field_well_typed_alter.
Qed.

Lemma root_well_typed_set_labels sc f f' sample_ids docs root :
  root_well_typed sc f root ->
  root_well_typed sc f (apply_set_labels f' sample_ids docs root).
Proof.
  unfold apply_set_labels. revert root.
  induction (zip sample_ids docs) as [|sd sds IH]; intros root Hwt; simpl; [done|].
  apply IH. unfold write_doc. revert root Hwt.
  induction (labels_of sd.2) as [|d ds IHd]; intros root Hwt; simpl; [done|].
  apply IHd. by apply root_well_typed_map_field.
Qed.

Lemma root_well_typed_delete sc f ids f' root :
  root_well_typed sc f root -> root_well_typed sc f (apply_delete_labels ids f' root).
Proof.
  unfold root_well_typed, apply_delete_labels. intros Hwt. apply Forall_fmap.
  eapply Forall_impl; [exact Hwt|]. intros s Hs. simpl.
  by apply field_well_typed_delete.
Qed.

Lemma root_well_typed_synced v f f' ps root :
  root_well_typed (_source_collection v) f root ->
  root_well_typed (_source_collection v) f (root_synced v f' ps root).
Proof.
  intros Hwt. unfold root_synced, root_updated.
  destruct (bool_decide _).
  - by apply root_well_typed_delete, root_well_typed_set_labels.
  - by apply root_well_typed_set_labels.
Qed.



Lemma root_label_ids_synced_other v f f' ps root :
  f <> f' -> root_label_ids f (root_synced v f' ps root) = root_label_ids f root.
Proof.
  intros Hne. unfold root_synced, root_updated. destruct (bool_decide _).
  - unfold root_label_ids at 1. rewrite root_labels_delete.
    destruct (decide (f = f')); [contradiction|].
    apply root_label_ids_set_labels.
  - apply root_label_ids_set_labels.
Qed.

Lemma gset_inhabited (X : gset oid) (i : oid) : i ∈ X -> X ≠ ∅.
Proof. intros Hi ->. by apply not_elem_of_empty in Hi. Qed.

Section DeletionPropagates.
Variables (v : PatchesView) (f : field) (b : oid) (ps : list Patch).
Hypothesis b_shown : forall root,
  root_well_typed (_source_collection v) f root ->
  b ∈ root_label_ids f root -> b ∈ source_label_ids v f root.
Hypothesis b_removed : b ∉ agg_label_ids v f ps.





End DeletionPropagates.


(** On a well-typed dataset the id aggregation of the source collection
    returns the ids of the labels it shows. *)

Lemma unwound_ids_view_sample sc f s :
  field_well_typed (source_schema sc f) (sfields s) f = true ->
  unwound_ids (_get_label_field_path (source_schema sc f) f (Some "id"))
    (sfields (view_sample sc s)) =
  label_id <$> List.filter (keep_label sc f) (field_labels f (sfields s)).
Proof.
  unfold field_well_typed, field_labels, view_sample, _get_label_field_path. simpl.
  intros Hwt. destruct (source_schema sc f) as [|a]; simpl;
    rewrite map_lookup_imap;
    destruct (sfields s !! f) as [[l|a' ls]|]; simpl; try done.
  - destruct (keep_label sc f l); simpl; [|done]. by repeat case_decide.
  - apply bool_decide_eq_true in Hwt as <-.
    case_decide as Hd; [done|]. exfalso. by apply Hd.
Qed.

Lemma source_label_ids_shown v f root :
  root_well_typed (_source_collection v) f root ->
  source_label_ids v f root = label_id <$> shown_labels (_source_collection v) f root.
Proof.
  intros Hwt. unfold source_label_ids, shown_labels, values_unwound, source_view, src_id_path.
  change (label_id <$> ?l) with (List.map label_id l).
  rewrite List.concat_map. f_equal.
  change (List.map ?h ?l) with (h <$> l).
  rewrite <- !list_fmap_compose. apply list_fmap_ext. intros k s Hs. simpl.
  apply unwound_ids_view_sample.
  apply list_elem_of_lookup_2, list_elem_of_In, List.filter_In in Hs as [Hs _].
  unfold root_well_typed in Hwt. rewrite Forall_forall in Hwt. apply Hwt.
  by apply list_elem_of_In.
Qed.

Lemma filter_all {A} (P : A -> bool) (l : list A) :
  (forall x, P x = true) -> List.filter P l = l.
Proof.
  intros HP. induction l as [|x l IH]; simpl; [done|]. by rewrite HP, IH.
Qed.

Lemma shown_labels_dataset sc f root :
  is_dataset sc -> shown_labels sc f root = root_labels f root.
Proof.
  intros [Hs Hl]. unfold shown_labels, root_labels.
  rewrite filter_all by apply Hs. f_equal.
  apply list_fmap_ext. intros _ s _. by apply filter_all.
Qed.

Lemma dataset_shows_all v f root :
  is_dataset (_source_collection v) ->
  root_well_typed (_source_collection v) f root ->
  source_label_ids v f root = root_label_ids f root.
Proof.
  intros Hd Hwt. rewrite source_label_ids_shown by done.
  by rewrite shown_labels_dataset.
Qed.




(** The scenario of the specification, evaluated: after the patch [p_b] is
    gone, [save] deletes the label [b] and sample [s1] keeps [a] only. *)
Example deletion_scenario :
  exists w',
    save (ex_view ex_dataset id) NoFields ex_world_deleted = inr (tt, w') /\
    src_root w' =
      [mkSample "s1" {[ "F" := Multi "detections" [ex_a]; "C" := Single ex_c ]}] /\
    calls w' =
      [BaseViewSave None; SetLabelsById "F" ["s1"] [DArray [ex_a]];
       DeleteLabels {["b"]} "F"].
Proof. eexists. split; [by vm_compute|]. split; by vm_compute. Qed.


(** ** Tag propagation and per-field view sync *)

Lemma sync_source_fcn_run v edit_fcn fs w :
  _sync_source_fcn v (fun ids f => edit_selected_labels v edit_fcn ids f) fs w =
  inr (tt, after_source w
             (root_tag_synced v edit_fcn (patches_dataset w) fs (src_root w))
             (tag_sync_calls v (patches_dataset w) fs)).
Proof.
  unfold _sync_source_fcn. revert w. induction fs as [|f fs IH]; intros w.
  - simpl. unfold ret. by rewrite after_source_nil.
  - cbn [for_each]. unfold bind at 1.
    change (bind (view_values v _) _ w) with
      (inr (tt, after_source w
                  (apply_edit_selected (_source_collection v) edit_fcn
                     (view_label_ids v f (patches_dataset w)) f (src_root w))
                  [SourceEditLabelTags (view_label_ids v f (patches_dataset w)) f])
       : Exn + unit * World).
    cbv beta iota. rewrite IH. by rewrite after_source_twice.
Qed.

Lemma edit_label_tags_run v edit_fcn a w :
  _edit_label_tags v edit_fcn a w =
  inr (tt, let ps := super_edit_label_tags v edit_fcn (normalize_fields a)
                       (patches_dataset w) in
           let fs := sync_fields v (normalize_fields a) in
           mkWorld (root_tag_synced v edit_fcn ps fs (src_root w)) ps
             (calls w ++ BaseEditLabelTags (normalize_fields a) :: tag_sync_calls v ps fs)).
Proof.
  unfold _edit_label_tags. unfold bind at 1. cbn [bind emit modify_patches].
  rewrite sync_source_fcn_run. unfold after_source. simpl. by rewrite <- app_assoc.
Qed.

Lemma rsplit1_head_id_path ty f :
  rsplit1_head (_get_label_field_path ty f (Some "id")) = _get_label_field_path ty f None.
Proof. destruct ty; reflexivity. Qed.

Lemma set_values_run v field_name write w :
  set_values v field_name write w =
  inr (tt, let f := split1_head field_name in
           let ps := write (patches_dataset w) in
           mkWorld
             (if is_label_field v f
              then apply_set_labels f (agg_sample_ids (_stages v ps))
                     (agg_docs v f (_stages v ps)) (src_root w)
              else src_root w)
             ps
             (calls w ++ BaseSetValues field_name ::
                if is_label_field v f
                then [SetLabelsById f (agg_sample_ids (_stages v ps))
                        (agg_docs v f (_stages v ps))]
                else [])).
Proof.
  unfold set_values. unfold bind at 1. cbn [bind emit modify_patches].
  destruct (is_label_field v (split1_head field_name)).
  - unfold _sync_source_view_field, agg_docs, id_path.
    rewrite rsplit1_head_id_path.
    unfold bind, get_patches, _set_labels_by_id, bind, emit, modify_root. simpl.
    by rewrite <- app_assoc.
  - reflexivity.
Qed.


Lemma roots_sync_calls_fields v fs ps root e :
  e ∈ roots_sync_calls v fs ps root -> exists f, event_field e = Some f /\ f ∈ fs.
Proof.
  revert root. induction fs as [|f fs IH]; intros root; cbn [roots_sync_calls].
  - by intros ?%elem_of_nil.
  - intros [He|He]%elem_of_app.
    + exists f. split; [|by left]. unfold root_sync_calls in He.
      apply elem_of_cons in He as [->|He]; [reflexivity|].
      destruct (bool_decide _).
      * apply list_elem_of_singleton in He as ->. reflexivity.
      * by apply elem_of_nil in He.
    + destruct (IH _ He) as (f' & Hf' & Hin). exists f'. split; [done|by right].
Qed.

Lemma roots_sync_calls_update v fs ps root f :
  f ∈ fs ->
  SetLabelsById f (agg_sample_ids ps) (agg_docs v f ps) ∈ roots_sync_calls v fs ps root.
Proof.
  revert root. induction fs as [|f' fs IH]; intros root Hf; cbn [roots_sync_calls].
  - by apply elem_of_nil in Hf.
  - apply elem_of_app. apply elem_of_cons in Hf as [->|Hf].
    + left. unfold root_sync_calls. by left.
    + right. by apply IH.
Qed.

Lemma elem_of_sync_fields v fs f :
  f ∈ sync_fields v (Some fs) <-> f ∈ fs /\ f ∈ _label_fields v.
Proof.
  unfold sync_fields, is_label_field.
  rewrite list_elem_of_In, List.filter_In, bool_decide_eq_true, <- list_elem_of_In.
  reflexivity.
Qed.

(** C5. [save] and [_edit_label_tags] turn a bare field name into a
    one-element list and pass the list, as it is, to the base write; the
    fields that are then synced are those of the list that the view tracks, or
    all tracked fields when no list is given.  Neither call raises: every call
    on the source collection that follows the base write is scoped to one of
    the synced fields, and each synced field gets its call, so a field that is
    not tracked is written by the base class and causes no sync call. *)
Theorem untracked_fields_excluded v edit_fcn a w :
  (forall f, normalize_fields (FieldName f) = Some [f]) /\
  sync_fields v None = _label_fields v /\
  (forall fs f, f ∈ sync_fields v (Some fs) <-> f ∈ fs /\ f ∈ _label_fields v) /\
  (exists w' es,
      save v a w = inr (tt, w') /\
      patches_dataset w' = super_save v (normalize_fields a) (patches_dataset w) /\
      calls w' = calls w ++ BaseViewSave (normalize_fields a) :: es /\
      (forall e, e ∈ es ->
         exists f, event_field e = Some f /\ f ∈ sync_fields v (normalize_fields a)) /\
      (forall f, f ∈ sync_fields v (normalize_fields a) ->
         exists sample_ids docs, SetLabelsById f sample_ids docs ∈ es)) /\
  (exists w' es,
      _edit_label_tags v edit_fcn a w = inr (tt, w') /\
      patches_dataset w' =
        super_edit_label_tags v edit_fcn (normalize_fields a) (patches_dataset w) /\
      calls w' = calls w ++ BaseEditLabelTags (normalize_fields a) :: es /\
      (forall e, e ∈ es ->
         exists f, event_field e = Some f /\ f ∈ sync_fields v (normalize_fields a)) /\
      (forall f, f ∈ sync_fields v (normalize_fields a) ->
         exists ids, SourceEditLabelTags ids f ∈ es)).
Proof.
  split; [reflexivity|]. split; [reflexivity|].
  split; [apply elem_of_sync_fields|]. split.
  - rewrite save_run. eexists. eexists. split; [reflexivity|].
    cbn [patches_dataset calls]. split; [reflexivity|]. split; [reflexivity|]. split.
    + intros e He. by apply roots_sync_calls_fields in He.
    + intros f Hf. eexists. eexists. by apply roots_sync_calls_update.
  - rewrite edit_label_tags_run. eexists. eexists. split; [reflexivity|].
    cbn [patches_dataset calls]. split; [reflexivity|]. split; [reflexivity|]. split.
    + intros e He. unfold tag_sync_calls in He.
      apply list_elem_of_fmap in He as (f & -> & Hf). exists f. by split.
    + intros f Hf.
      set (ps := super_edit_label_tags v edit_fcn (normalize_fields a) (patches_dataset w)).
      exists (view_label_ids v f ps). unfold tag_sync_calls.
      by apply (list_elem_of_fmap_2 (fun f => SourceEditLabelTags (view_label_ids v f ps) f)).
Qed.

Lemma untracked_fields_excluded_witness :
  (exists w',
      save (ex_view ex_dataset id) (FieldList ["other_untracked_field"]) ex_world
        = inr (tt, w') /\
      calls w' = [BaseViewSave (Some ["other_untracked_field"])]) /\
  (exists w',
      _edit_label_tags (ex_view ex_dataset id) (add_tag "t") (FieldName "C") ex_world
        = inr (tt, w') /\
      calls w' = [BaseEditLabelTags (Some ["C"])]).
Proof.
  destruct (untracked_fields_excluded (ex_view ex_dataset id) (add_tag "t")
              (FieldList ["other_untracked_field"]) ex_world)
    as (_ & _ & _ & (w1 & es1 & Hrun1 & _ & Hcalls1 & Hes1 & _) & _).
  destruct (untracked_fields_excluded (ex_view ex_dataset id) (add_tag "t")
              (FieldName "C") ex_world)
    as (_ & _ & _ & _ & (w2 & es2 & Hrun2 & _ & Hcalls2 & Hes2 & _)).
  split.
  - exists w1. split; [exact Hrun1|]. rewrite Hcalls1.
    destruct es1 as [|e es1]; [reflexivity|].
    destruct (Hes1 e) as (f & _ & Hf); [by left|].
    vm_compute in Hf. by apply elem_of_nil in Hf.
  - exists w2. split; [exact Hrun2|]. rewrite Hcalls2.
    destruct es2 as [|e es2]; [reflexivity|].
    destruct (Hes2 e) as (f & _ & Hf); [by left|].
    vm_compute in Hf. by apply elem_of_nil in Hf.
Defined.








(** The labels that the view shows are tagged: the scenario, evaluated. *)
Example tag_scenario :
  exists w',
    _edit_label_tags (ex_view ex_dataset ex_limit1) (add_tag "t") NoFields ex_world
      = inr (tt, w') /\
    root_labels "F" (src_root w') = [mkLabel "a" "cat" ["t"]; ex_b].
Proof. eexists. split; by vm_compute. Qed.


(** C8. The two bulk sync paths aggregate over different collections.  The
    sync that [set_values] triggers for a tracked field aggregates the sample
    ids and the raw label values over the view, that is over the patches that
    its stages show; the sync that [save] triggers aggregates them over the
    whole patches dataset, whatever the stages of the view are. *)
Theorem sync_paths_aggregate_differently v field_name write a w :
  (is_label_field v (split1_head field_name) = true ->
   exists w',
     set_values v field_name write w = inr (tt, w') /\
     let f := split1_head field_name in
     let shown := _stages v (patches_dataset w') in
     calls w' =
       calls w ++
         [BaseSetValues field_name;
          SetLabelsById f (sample_id <$> shown)
            ((fun p => raw_value (_get_label_field_path (_get_label_field_type v f) f None)
                         (pfields p)) <$> shown)]) /\
  (forall f,
      f ∈ sync_fields v (normalize_fields a) ->
      exists w',
        save v a w = inr (tt, w') /\
        let all := patches_dataset w' in
        SetLabelsById f (sample_id <$> all)
          ((fun p => raw_value (_get_label_field_path (_get_label_field_type v f) f None)
                       (pfields p)) <$> all)
        ∈ calls w').
Proof.
  split.
  - intros Hf. rewrite set_values_run. eexists. split; [reflexivity|].
    cbn [patches_dataset calls]. rewrite Hf.
    unfold agg_docs, agg_sample_ids, id_path. by rewrite rsplit1_head_id_path.
  - intros f Hf. rewrite save_run. eexists. split; [reflexivity|].
    cbn [patches_dataset calls]. apply elem_of_app. right. right.
    pose proof (roots_sync_calls_update v _
                  (super_save v (normalize_fields a) (patches_dataset w))
                  (src_root w) f Hf) as Hin.
    unfold agg_docs, agg_sample_ids, id_path in Hin.
    by rewrite rsplit1_head_id_path in Hin.
Qed.

Lemma sync_paths_aggregate_differently_witness :
  (exists w',
      set_values (ex_view ex_dataset ex_limit1) ["F"; "detections"; "label"] id ex_world
        = inr (tt, w') /\
      calls w' = [BaseSetValues ["F"; "detections"; "label"];
                  SetLabelsById "F" ["s1"] [DArray [ex_a]]]) /\
  (exists w',
      save (ex_view ex_dataset ex_limit1) NoFields ex_world = inr (tt, w') /\
      SetLabelsById "F" ["s1"; "s1"] [DArray [ex_a]; DArray [ex_b]] ∈ calls w').
Proof.
  destruct (sync_paths_aggregate_differently (ex_view ex_dataset ex_limit1)
              ["F"; "detections"; "label"] id NoFields ex_world) as [Hview Hroot].
  split.
  - destruct Hview as (w' & Hrun & Hcalls); [reflexivity|].
    exists w'. split; [exact Hrun|].
    assert (patches_dataset w' = [ex_p_a; ex_p_b]) as Hps.
    { rewrite set_values_run in Hrun. by injection Hrun as <-. }
    cbv zeta in Hcalls. rewrite Hps in Hcalls. exact Hcalls.
  - destruct (Hroot "F") as (w' & Hrun & Hin); [vm_compute; by left|].
    exists w'. split; [exact Hrun|].
    assert (patches_dataset w' = [ex_p_a; ex_p_b]) as Hps.
    { rewrite save_run in Hrun. by injection Hrun as <-. }
    cbv zeta in Hin. rewrite Hps in Hin. exact Hin.
Defined.


(** ** Idempotence of full-root sync *)

Lemma map_value_ext (g h : Label -> Label) val :
  (forall l, g l = h l) -> map_value g val = map_value h val.
Proof.
  intros Hgh. destruct val as [l|a ls]; simpl; [by rewrite Hgh|].
  f_equal. apply list_fmap_ext. intros k l _. apply Hgh.
Qed.

Lemma map_value_compose (g h : Label -> Label) val :
  map_value g (map_value h val) = map_value (g ∘ h) val.
Proof.
  destruct val as [l|a ls]; simpl; [reflexivity|]. by rewrite <- list_fmap_compose.
Qed.

Lemma map_value_id val : map_value (fun l => l) val = val.
Proof. destruct val as [l|a ls]; simpl; [reflexivity|]. by rewrite list_fmap_id. Qed.

Lemma alter_map_value_ext (g h : Label -> Label) f (flds : gmap field LabelValue) :
  (forall l, g l = h l) -> alter (map_value g) f flds = alter (map_value h) f flds.
Proof.
  intros Hgh. apply map_eq. intros k. destruct (decide (k = f)) as [->|Hne].
  - rewrite !lookup_alter_eq. destruct (flds !! f); simpl; [|reflexivity].
    f_equal. by apply map_value_ext.
  - by rewrite !lookup_alter_ne.
Qed.

Lemma alter_map_value_id f (flds : gmap field LabelValue) :
  alter (map_value (fun l => l)) f flds = flds.
Proof.
  apply map_eq. intros k. destruct (decide (k = f)) as [->|Hne].
  - rewrite lookup_alter_eq. destruct (flds !! f); simpl; [|reflexivity].
    by rewrite map_value_id.
  - by rewrite lookup_alter_ne.
Qed.

Lemma alter_map_value_compose (g h : Label -> Label) f (flds : gmap field LabelValue) :
  alter (map_value g) f (alter (map_value h) f flds) = alter (map_value (g ∘ h)) f flds.
Proof.
  apply map_eq. intros k. destruct (decide (k = f)) as [->|Hne].
  - rewrite !lookup_alter_eq. destruct (flds !! f); simpl; [|reflexivity].
    by rewrite map_value_compose.
  - by rewrite !lookup_alter_ne.
Qed.

Lemma map_labels_ext f G H root :
  (forall y l, G y l = H y l) -> map_labels f G root = map_labels f H root.
Proof.
  intros HGH. unfold map_labels. apply list_fmap_ext. intros k s _. simpl.
  f_equal. apply alter_map_value_ext. intros l. apply HGH.
Qed.

Lemma map_labels_compose f G H root :
  map_labels f G (map_labels f H root) = map_labels f (fun y => G y ∘ H y) root.
Proof.
  unfold map_labels. rewrite <- list_fmap_compose.
  apply list_fmap_ext. intros k s _. simpl. f_equal. apply alter_map_value_compose.
Qed.

Lemma write_label_map_labels f x root d :
  write_label f x root d =
  map_labels f (fun y l => if bool_decide (y = x) then replace_label d l else l) root.
Proof.
  unfold write_label, map_field, map_labels. apply list_fmap_ext. intros k s _. simpl.
  destruct (bool_decide (sid s = x)); [reflexivity|].
  rewrite alter_map_value_id. by destruct s.
Qed.


Lemma map_labels_id f root : map_labels f (fun _ l => l) root = root.
Proof.
  unfold map_labels. rewrite <- (list_fmap_id root) at 2.
  apply list_fmap_ext. intros k s _. simpl. rewrite alter_map_value_id. by destruct s.
Qed.

Lemma flat_writes_map_labels f W root :
  foldl (fun r w => write_label f w.1 r w.2) root W = map_labels f (compose_writes W) root.
Proof.
  revert root. induction W as [|w W IH]; intros root; simpl.
  - symmetry. apply map_labels_id.
  - rewrite IH, write_label_map_labels, map_labels_compose. reflexivity.
Qed.

Lemma write_doc_flat f root w :
  write_doc f root w =
  foldl (fun r w => write_label f w.1 r w.2) root ((fun d => (w.1, d)) <$> labels_of w.2).
Proof.
  unfold write_doc. revert root.
  induction (labels_of w.2) as [|d ds IH]; intros root; simpl; [reflexivity|]. apply IH.
Qed.

Lemma apply_set_labels_map_labels f sample_ids docs root :
  apply_set_labels f sample_ids docs root =
  map_labels f (compose_writes (flat_writes (zip sample_ids docs))) root.
Proof.
  rewrite <- flat_writes_map_labels. unfold apply_set_labels, flat_writes.
  revert root. induction (zip sample_ids docs) as [|w ws IH]; intros root; simpl.
  - reflexivity.
  - rewrite foldl_app, <- write_doc_flat. apply IH.
Qed.

Lemma compose_writes_snoc W w y l :
  compose_writes (W ++ [w]) y l =
  if bool_decide (y = w.1) then replace_label w.2 (compose_writes W y l)
  else compose_writes W y l.
Proof. unfold compose_writes. by rewrite foldl_app. Qed.

Lemma compose_writes_id W y l : label_id (compose_writes W y l) = label_id l.
Proof.
  induction W as [|w W IH] using rev_ind; [reflexivity|].
  rewrite compose_writes_snoc. destruct (bool_decide (y = w.1)); [|exact IH].
  by rewrite replace_label_id.
Qed.

Lemma compose_writes_idem W y l :
  compose_writes W y (compose_writes W y l) = compose_writes W y l.
Proof.
  revert l. induction W as [|w W IH] using rev_ind; intros l; [reflexivity|].
  rewrite !compose_writes_snoc. destruct (bool_decide (y = w.1)); [|apply IH].
  unfold replace_label at 2 3.
  destruct (decide (label_id (compose_writes W y l) = label_id w.2)) as [He|Hne].
  - unfold replace_label. rewrite compose_writes_id.
    destruct (decide (label_id w.2 = label_id w.2)); [reflexivity|contradiction].
  - rewrite IH. unfold replace_label.
    destruct (decide (label_id (compose_writes W y l) = label_id w.2));
      [contradiction|reflexivity].
Qed.

Lemma apply_set_labels_idem f sample_ids docs root :
  apply_set_labels f sample_ids docs (apply_set_labels f sample_ids docs root) =
  apply_set_labels f sample_ids docs root.
Proof.
  rewrite !apply_set_labels_map_labels, map_labels_compose.
  apply map_labels_ext. intros y l. apply compose_writes_idem.
Qed.


Lemma filter_ids_fmap (X : gset oid) (g : Label -> Label) ls :
  (forall l, label_id (g l) = label_id l) ->
  List.filter (fun l => bool_decide (label_id l ∉ X)) (g <$> ls) =
  g <$> List.filter (fun l => bool_decide (label_id l ∉ X)) ls.
Proof.
  intros Hid. induction ls as [|l ls IH]; [reflexivity|].
  rewrite fmap_cons. cbn [List.filter]. rewrite IH.
  rewrite (bool_decide_ext (label_id (g l) ∉ X) (label_id l ∉ X)) by (by rewrite Hid).
  by destruct (bool_decide (label_id l ∉ X)).
Qed.

Lemma delete_map_value X (g : Label -> Label) (o : option LabelValue) :
  (forall l, label_id (g l) = label_id l) ->
  (map_value g <$> o) ≫= delete_in_value X = map_value g <$> (o ≫= delete_in_value X).
Proof.
  intros Hid. destruct o as [[l|a ls]|]; simpl; [|by rewrite filter_ids_fmap|reflexivity].
  rewrite Hid. by destruct (decide (label_id l ∈ X)).
Qed.

Lemma delete_map_labels X f G root :
  (forall y l, label_id (G y l) = label_id l) ->
  apply_delete_labels X f (map_labels f G root) =
  map_labels f G (apply_delete_labels X f root).
Proof.
  intros Hid. unfold apply_delete_labels, map_labels.
  rewrite <- !list_fmap_compose. apply list_fmap_ext. intros k s _. simpl. f_equal.
  apply map_eq. intros j. destruct (decide (j = f)) as [->|Hne].
  - rewrite lookup_partial_alter_eq, !lookup_alter_eq, lookup_partial_alter_eq.
    by apply delete_map_value.
  - rewrite lookup_partial_alter_ne, !lookup_alter_ne, lookup_partial_alter_ne by done.
    reflexivity.
Qed.

Lemma delete_set_labels X f sample_ids docs root :
  apply_delete_labels X f (apply_set_labels f sample_ids docs root) =
  apply_set_labels f sample_ids docs (apply_delete_labels X f root).
Proof.
  rewrite !apply_set_labels_map_labels. apply delete_map_labels.
  intros y l. apply compose_writes_id.
Qed.

(** After one sync whose deletion reveals no label, the update changes
    nothing and the id difference is empty. *)
Lemma root_synced_fixed v f ps root :
  source_label_ids v f (root_synced v f ps root)
    ⊆ source_label_ids v f (root_updated v f ps root) ->
  root_updated v f ps (root_synced v f ps root) = root_synced v f ps root /\
  root_delete_ids v f ps (root_synced v f ps root) = ∅.
Proof.
  intros Hstable.
  assert (root_updated v f ps (root_synced v f ps root) = root_synced v f ps root) as Hupd.
  { unfold root_synced, root_updated. destruct (bool_decide _).
    - rewrite <- delete_set_labels. by rewrite apply_set_labels_idem.
    - apply apply_set_labels_idem. }
  split; [exact Hupd|].
  apply elem_of_equiv_empty_L. intros i Hi. unfold root_delete_ids in Hi.
  rewrite Hupd in Hi. apply elem_of_difference in Hi as [Hvis Hnot].
  apply elem_of_list_to_set in Hvis. rewrite elem_of_list_to_set in Hnot.
  pose proof (source_label_ids_in_root _ _ _ _ Hvis) as Hroot.
  assert (i ∈ root_delete_ids v f ps root) as Hdel.
  { unfold root_delete_ids. apply elem_of_difference. split.
    - apply elem_of_list_to_set. by apply Hstable.
    - by rewrite elem_of_list_to_set. }
  revert Hroot. unfold root_synced.
  rewrite bool_decide_eq_true_2 by (by eapply gset_inhabited).
  by apply deleted_ids_absent.
Qed.


Lemma dataset_sync_reveals_nothing v f ps root :
  is_dataset (_source_collection v) ->
  root_well_typed (_source_collection v) f root ->
  source_label_ids v f (root_synced v f ps root)
    ⊆ source_label_ids v f (root_updated v f ps root).
Proof.
  intros Hd Hwt i Hi.
  rewrite dataset_shows_all in Hi by (by try apply root_well_typed_synced).
  rewrite dataset_shows_all by (by try apply root_well_typed_set_labels).
  destruct (decide (i ∈ root_label_ids f (root_updated v f ps root))) as [|Hn]; [done|].
  exfalso. revert Hi. unfold root_synced. destruct (bool_decide _); [|done].
  by apply delete_keeps_absent.
Qed.

(** C3, as the code has it.  Running [_sync_source_root_field] twice in
    succession, with no edit in between, leaves the dataset of the source
    collection as the first run left it, provided the deletion of the first
    run does not make the source collection show a label that it did not show
    when the deletion phase read it (which is always so when the source
    collection is the dataset itself).  The second run writes the same sample
    ids and label documents as the first, its id difference is empty and it
    issues no delete call. *)
Theorem root_sync_idempotent v f w :
  source_label_ids v f (root_synced v f (patches_dataset w) (src_root w))
    ⊆ source_label_ids v f (root_updated v f (patches_dataset w) (src_root w)) ->
  exists w1 w2 sample_ids docs tail,
    _sync_source_root_field v f w = inr (tt, w1) /\
    _sync_source_root_field v f w1 = inr (tt, w2) /\
    src_root w2 = src_root w1 /\
    patches_dataset w2 = patches_dataset w1 /\
    calls w1 = calls w ++ SetLabelsById f sample_ids docs :: tail /\
    calls w2 = calls w1 ++ [SetLabelsById f sample_ids docs] /\
    list_to_set (source_label_ids v f (src_root w2))
      ∖ list_to_set (agg_label_ids v f (patches_dataset w2)) = (∅ : gset oid).
Proof.
  intros Hstable.
  destruct (root_synced_fixed v f _ _ Hstable) as [Hupd Hdel].
  set (ps := patches_dataset w) in *. set (root := src_root w) in *.
  exists (after_source w (root_synced v f ps root) (root_sync_calls v f ps root)).
  eexists. exists (agg_sample_ids ps), (agg_docs v f ps).
  eexists. split; [apply sync_root_field_run|].
  split; [apply sync_root_field_run|].
  cbn [after_source src_root patches_dataset calls]. fold ps.
  assert (root_synced v f ps (root_synced v f ps root) = root_synced v f ps root) as Hfix.
  { unfold root_synced at 1. rewrite Hdel.
    rewrite bool_decide_eq_false_2 by (intros Hn; by apply Hn). exact Hupd. }
  rewrite Hfix. split; [reflexivity|]. split; [reflexivity|].
  split; [reflexivity|]. split.
  - unfold root_sync_calls at 2. rewrite Hdel.
    rewrite bool_decide_eq_false_2 by (intros Hn; by apply Hn). reflexivity.
  - unfold root_delete_ids in Hdel. by rewrite Hupd in Hdel.
Qed.

Lemma root_sync_idempotent_witness :
  exists w1 w2,
    _sync_source_root_field (ex_view ex_dataset id) "F" ex_world_deleted = inr (tt, w1) /\
    _sync_source_root_field (ex_view ex_dataset id) "F" w1 = inr (tt, w2) /\
    src_root w2 = src_root w1 /\
    calls w2 = calls w1 ++ [SetLabelsById "F" ["s1"] [DArray [ex_a]]].
Proof.
  destruct (root_sync_idempotent (ex_view ex_dataset id) "F" ex_world_deleted)
    as (w1 & w2 & sample_ids & docs & tail & Hrun1 & Hrun2 & Hroot & _ & Hc1 & Hc2 & _).
  - apply dataset_sync_reveals_nothing; [split; reflexivity|repeat constructor].
  - exists w1, w2. split; [exact Hrun1|]. split; [exact Hrun2|]. split; [exact Hroot|].
    rewrite Hc2. f_equal. f_equal.
    rewrite sync_root_field_run in Hrun1. injection Hrun1 as <-.
    cbn [after_source calls] in Hc1. apply app_inv_head in Hc1.
    by injection Hc1 as <- <- _.
Defined.

(** C3 as stated fails for a source collection that is a view whose content
    depends on the labels.  The source shows the samples with the most
    detections: at first [s1], with [a], [b] and [c].  The first run deletes
    [b] and [c], whose patches are gone; then the source shows [s3], and the
    second run deletes its labels [d] and [e], which never had patches. *)
Lemma root_sync_twice_differs :
  exists w1 w2,
    _sync_source_root_field (ex_view ex_most_detections id) "F" ex_world_sorted
      = inr (tt, w1) /\
    _sync_source_root_field (ex_view ex_most_detections id) "F" w1 = inr (tt, w2) /\
    root_label_ids "F" (src_root w1) = ["a"; "d"; "e"] /\
    root_label_ids "F" (src_root w2) = ["a"] /\
    src_root w2 <> src_root w1 /\
    last (calls w2) = Some (DeleteLabels {["d"; "e"]} "F").
Proof.
  eexists. eexists. split; [by vm_compute|]. split; [by vm_compute|].
  split; [by vm_compute|]. split; [by vm_compute|]. split.
  - intros Heq. apply (f_equal (root_label_ids "F")) in Heq.
    vm_compute in Heq. discriminate.
  - by vm_compute.
Qed.


(** ** The id index *)

Lemma foldl_insert_lookup (x : oid) (ks : list oid) (m0 : gmap oid oid) (i : oid) :
  foldl (fun m k => <[k := x]> m) m0 ks !! i =
  if decide (i ∈ ks) then Some x else m0 !! i.
Proof.
  revert m0. induction ks as [|k ks IH]; intros m0; simpl.
  - destruct (decide (i ∈ [])) as [H|H]; [by apply elem_of_nil in H|reflexivity].
  - rewrite IH. destruct (decide (i ∈ ks)) as [Hin|Hin].
    + destruct (decide (i ∈ k :: ks)) as [|Hn]; [reflexivity|].
      exfalso. apply Hn. by right.
    + destruct (decide (i = k)) as [->|Hne].
      * rewrite lookup_insert_eq.
        destruct (decide (k ∈ k :: ks)) as [|Hn]; [reflexivity|].
        exfalso. apply Hn. by left.
      * rewrite lookup_insert_ne by done.
        destruct (decide (i ∈ k :: ks)) as [Hc|]; [|reflexivity].
        apply elem_of_cons in Hc as [?|?]; done.
Qed.

(** The aggregation with and without unwinding, on one record. *)
Lemma ids_value_list a f flds :
  ids_value (_get_label_field_path (ListType a) f (Some "id")) flds = VNone /\
  unwound_ids (_get_label_field_path (ListType a) f (Some "id")) flds = [] \/
  exists ids,
    ids_value (_get_label_field_path (ListType a) f (Some "id")) flds = VIds ids /\
    unwound_ids (_get_label_field_path (ListType a) f (Some "id")) flds = ids.
Proof.
  unfold _get_label_field_path. simpl.
  destruct (flds !! f) as [[l|a' ls]|]; simpl; try (by left).
  case_decide; [right; eauto|by left].
Qed.

Lemma ids_value_scalar f flds :
  ids_value (_get_label_field_path ScalarType f (Some "id")) flds = VNone /\
  unwound_ids (_get_label_field_path ScalarType f (Some "id")) flds = [] \/
  exists i,
    ids_value (_get_label_field_path ScalarType f (Some "id")) flds = VId i /\
    unwound_ids (_get_label_field_path ScalarType f (Some "id")) flds = [i].
Proof.
  unfold _get_label_field_path. simpl.
  destruct (flds !! f) as [[l|a' ls]|]; simpl; try (by left).
  right. eauto.
Qed.

Lemma last_cons_fmap_filter (g : Patch -> bool) p shown :
  last (pid <$> List.filter g (p :: shown)) =
  match last (pid <$> List.filter g shown) with
  | Some q => Some q
  | None => if g p then Some (pid p) else None
  end.
Proof.
  cbn [List.filter]. destruct (g p); [|by destruct (last _)].
  rewrite fmap_cons. destruct (pid <$> List.filter g shown) as [|q qs] eqn:Hq.
  - reflexivity.
  - rewrite last_cons. by destruct (last (q :: qs)) eqn:Hl.
Qed.

Lemma ids_map_list_lookup v f a shown m0 i :
  _get_label_field_type v f = ListType a ->
  foldl ids_map_list_step m0
    (zip (pid <$> shown) ((fun p => ids_value (id_path v f) (pfields p)) <$> shown)) !! i =
  match last (pid <$> List.filter (holds_id v f i) shown) with
  | Some q => Some q
  | None => m0 !! i
  end.
Proof.
  intros Hty. revert m0. induction shown as [|p shown IH]; intros m0.
  - reflexivity.
  - rewrite !fmap_cons. cbn [zip zip_with foldl]. rewrite IH, last_cons_fmap_filter.
    destruct (last (pid <$> List.filter (holds_id v f i) shown)); [reflexivity|].
    unfold ids_map_list_step, holds_id, id_path. rewrite Hty. cbn [fst snd].
    destruct (ids_value_list a f (pfields p)) as [[-> ->]|(ids & -> & ->)].
    + rewrite bool_decide_eq_false_2; [reflexivity|by intros ?%elem_of_nil].
    + rewrite foldl_insert_lookup.
      destruct (decide (i ∈ ids)).
      * by rewrite bool_decide_eq_true_2.
      * by rewrite bool_decide_eq_false_2.
Qed.

Lemma ids_map_scalar_lookup v f shown m0 :
  _get_label_field_type v f = ScalarType ->
  exists m,
    fold_exn ids_map_scalar_step m0
      (zip (pid <$> shown) ((fun p => ids_value (id_path v f) (pfields p)) <$> shown))
    = inr m /\
    forall i,
      m !! i =
      match last (pid <$> List.filter (holds_id v f i) shown) with
      | Some q => if decide (i = "") then m0 !! i else Some q
      | None => m0 !! i
      end.
Proof.
  intros Hty. revert m0. induction shown as [|p shown IH]; intros m0.
  - exists m0. split; [reflexivity|]. intros i. reflexivity.
  - rewrite !fmap_cons. cbn [zip zip_with fold_exn].
    unfold ids_map_scalar_step at 1, id_path at 1. rewrite Hty. cbn [fst snd].
    destruct (ids_value_scalar f (pfields p)) as [[Hv Hu]|(j & Hv & Hu)]; rewrite Hv.
    + destruct (IH m0) as (m & Hm & Hlook). exists m. split; [exact Hm|].
      intros i. rewrite Hlook, last_cons_fmap_filter.
      destruct (last (pid <$> List.filter (holds_id v f i) shown)); [reflexivity|].
      unfold holds_id, id_path. rewrite Hty, Hu.
      rewrite bool_decide_eq_false_2; [reflexivity|by intros ?%elem_of_nil].
    + destruct (decide (j = "")) as [->|Hj].
      * destruct (IH m0) as (m & Hm & Hlook). exists m. split; [exact Hm|].
        intros i. rewrite Hlook, last_cons_fmap_filter.
        destruct (last (pid <$> List.filter (holds_id v f i) shown)); [reflexivity|].
        unfold holds_id, id_path. rewrite Hty, Hu.
        destruct (bool_decide_reflect (i ∈ [""])) as [Hi|Hi]; [|reflexivity].
        apply list_elem_of_singleton in Hi as ->. reflexivity.
      * destruct (IH (<[j := pid p]> m0)) as (m & Hm & Hlook). exists m.
        split; [exact Hm|]. intros i. rewrite Hlook, last_cons_fmap_filter.
        destruct (last (pid <$> List.filter (holds_id v f i) shown)).
        { destruct (decide (i = "")) as [->|]; [|reflexivity].
          by rewrite lookup_insert_ne. }
        unfold holds_id, id_path. rewrite Hty, Hu.
        destruct (bool_decide_reflect (i ∈ [j])) as [Hi|Hi].
        -- apply list_elem_of_singleton in Hi as ->.
           rewrite lookup_insert_eq. by destruct (decide (j = "")).
        -- rewrite lookup_insert_ne; [reflexivity|].
           intros ->. apply Hi. by left.
Qed.


Lemma get_ids_map_run v f w :
  exists m,
    _get_ids_map v f w = inr (m, w) /\
    forall i,
      m !! i =
      if negb (is_list_field (_get_label_field_type v f)) && bool_decide (i = "")
      then None
      else last (pid <$> List.filter (holds_id v f i) (_stages v (patches_dataset w))).
Proof.
  unfold _get_ids_map, bind, get_patches.
  destruct (_get_label_field_type v f) as [|a] eqn:Hty; cbn [is_list_field negb andb].
  - destruct (ids_map_scalar_lookup v f (_stages v (patches_dataset w)) ∅ Hty)
      as (m & Hm & Hlook).
    unfold id_path in Hm. rewrite Hty in Hm. unfold lift_exn. rewrite Hm.
    exists m. split; [reflexivity|]. intros i. rewrite Hlook, lookup_empty.
    destruct (last _); destruct (decide (i = "")) as [->|Hne];
      rewrite ?bool_decide_eq_true_2, ?bool_decide_eq_false_2 by done; reflexivity.
  - eexists. split; [reflexivity|]. intros i.
    pose proof (ids_map_list_lookup v f a (_stages v (patches_dataset w)) ∅ i Hty) as Hl.
    unfold id_path in Hl. rewrite Hty in Hl. rewrite Hl, lookup_empty.
    by destruct (last _).
Qed.

Lemma fmap_nil_iff {A B} (g : A -> B) (l : list A) : g <$> l = [] <-> l = [].
Proof. split; [apply fmap_nil_inv|by intros ->]. Qed.

Lemma holder_exists v f i shown :
  List.filter (holds_id v f i) shown <> [] <->
  i ∈ values_unwound (id_path v f) (pfields <$> shown).
Proof.
  rewrite elem_of_values_unwound. split.
  - intros Hne. destruct (List.filter (holds_id v f i) shown) as [|p ps] eqn:Hf; [done|].
    assert (In p (List.filter (holds_id v f i) shown)) as Hin by (rewrite Hf; by left).
    apply List.filter_In in Hin as [Hin Hp]. apply bool_decide_eq_true in Hp.
    exists (pfields p). split; [|done].
    apply list_elem_of_fmap_2. by apply list_elem_of_In.
  - intros (flds & (p & -> & Hp)%list_elem_of_fmap & Hi) Hnil.
    assert (In p (List.filter (holds_id v f i) shown)) as Hin.
    { apply List.filter_In. split; [by apply list_elem_of_In|].
      by apply bool_decide_eq_true. }
    by rewrite Hnil in Hin.
Qed.

(** X1. [_get_ids_map] never raises and does not change either collection.
    Its keys are the label ids of the field that the patches shown by the
    view hold, all of them for a list-type field, and those that are not the
    empty string for a scalar field: a patch without a value, or with an empty
    list, adds no key. *)
Theorem get_ids_map_keys v f w :
  exists m,
    _get_ids_map v f w = inr (m, w) /\
    forall i,
      i ∈ dom m <->
      i ∈ view_label_ids v f (patches_dataset w) /\
      (is_list_field (_get_label_field_type v f) = true \/ i <> "").
Proof.
  destruct (get_ids_map_run v f w) as (m & Hrun & Hlook).
  exists m. split; [exact Hrun|]. intros i.
  rewrite elem_of_dom, Hlook. unfold view_label_ids. rewrite <- holder_exists.
  destruct (is_list_field (_get_label_field_type v f)); cbn [negb andb].
  - rewrite last_is_Some, fmap_nil_iff.
    split; [intros Hh; split; [exact Hh|by left]|by intros [Hh _]].
  - destruct (bool_decide_reflect (i = "")) as [->|Hne].
    + split; [by intros [? ?]|]. intros [_ [?|?]]; done.
    + rewrite last_is_Some, fmap_nil_iff.
      split; [intros Hh; split; [exact Hh|by right]|by intros [Hh _]].
Qed.

Lemma get_ids_map_keys_witness :
  exists m,
    _get_ids_map (ex_view ex_dataset ex_limit1) "F" ex_world = inr (m, ex_world) /\
    ("a" ∈ dom m) /\ ("b" ∉ dom m).
Proof.
  destruct (get_ids_map_keys (ex_view ex_dataset ex_limit1) "F" ex_world)
    as (m & Hrun & Hkeys).
  exists m. split; [exact Hrun|]. split.
  - apply Hkeys. split; [vm_compute; by left|by left].
  - intros Hb. apply Hkeys in Hb as [Hb _]. vm_compute in Hb.
    apply elem_of_cons in Hb as [Hb|Hb%elem_of_nil]; [discriminate|done].
Defined.


(** X2. An entry of the map that [_get_ids_map] returns sends a label id to
    the id of a patch that the view shows and that holds this label id in the
    field; when several shown patches hold it, the last one in the order of the
    view wins. *)
Theorem get_ids_map_last_wins v f w :
  exists m,
    _get_ids_map v f w = inr (m, w) /\
    forall i q,
      m !! i = Some q ->
      last (pid <$> List.filter (holds_id v f i) (_stages v (patches_dataset w))) = Some q /\
      exists p,
        p ∈ _stages v (patches_dataset w) /\ pid p = q /\
        i ∈ unwound_ids (id_path v f) (pfields p).
Proof.
  destruct (get_ids_map_run v f w) as (m & Hrun & Hlook).
  exists m. split; [exact Hrun|]. intros i q Hq. rewrite Hlook in Hq.
  destruct (negb _ && _); [discriminate|]. split; [exact Hq|].
  apply last_Some_elem_of, list_elem_of_fmap in Hq as (p & -> & Hp).
  apply list_elem_of_In, List.filter_In in Hp as [Hp Hh].
  exists p. split; [by apply list_elem_of_In|]. split; [reflexivity|].
  by apply bool_decide_eq_true in Hh.
Qed.

Lemma get_ids_map_last_wins_witness :
  exists m,
    _get_ids_map (ex_view ex_dataset id) "F" (mkWorld [ex_s1] [ex_p_b; ex_p_a; ex_p_b3] [])
      = inr (m, mkWorld [ex_s1] [ex_p_b; ex_p_a; ex_p_b3] []) /\
    m !! "b" = Some "p_b3".
Proof.
  destruct (get_ids_map_last_wins (ex_view ex_dataset id) "F"
              (mkWorld [ex_s1] [ex_p_b; ex_p_a; ex_p_b3] [])) as (m & Hrun & Hlast).
  exists m. split; [exact Hrun|].
  destruct (m !! "b") as [q|] eqn:Hq.
  - destruct (Hlast "b" q Hq) as [Hl _]. vm_compute in Hl. congruence.
  - exfalso. destruct (get_ids_map_keys (ex_view ex_dataset id) "F"
              (mkWorld [ex_s1] [ex_p_b; ex_p_a; ex_p_b3] [])) as (m' & Hrun' & Hkeys).
    rewrite Hrun in Hrun'. injection Hrun' as <-.
    assert ("b" ∈ dom m) as Hd.
    { apply Hkeys. split; [vm_compute; by left|by left]. }
    apply elem_of_dom in Hd as [? Hd]. congruence.
Defined.

Lemma concat_unique_holder {A B} `{EqDecision B} (g : A -> list B) (l : list A) p q i :
  NoDup (concat (g <$> l)) ->
  p ∈ l -> q ∈ l -> i ∈ g p -> i ∈ g q -> p = q.
Proof.
  induction l as [|x l IH]; intros Hnd Hp Hq Hip Hiq.
  - by apply elem_of_nil in Hp.
  - rewrite fmap_cons in Hnd. cbn [concat] in Hnd.
    apply NoDup_app in Hnd as (_ & Hdisj & Hnd).
    assert (forall r, r ∈ l -> i ∈ g r -> i ∈ concat (g <$> l)) as Hrest.
    { intros r Hr Hir. apply elem_of_concat. exists (g r). split; [done|].
      by apply list_elem_of_fmap_2. }
    apply elem_of_cons in Hp as [->|Hp]; apply elem_of_cons in Hq as [->|Hq].
    + reflexivity.
    + exfalso. apply (Hdisj i Hip). by apply (Hrest q).
    + exfalso. apply (Hdisj i Hiq). by apply (Hrest p).
    + by apply IH.
Qed.

(** X3. When no label id occurs twice among the patches that the view shows,
    the map of [_get_ids_map] sends every label id that a shown patch holds in
    the field (the empty string apart, for a scalar field) to the id of that
    patch. *)
Theorem get_ids_map_unique v f w p i :
  NoDup (view_label_ids v f (patches_dataset w)) ->
  p ∈ _stages v (patches_dataset w) ->
  i ∈ unwound_ids (id_path v f) (pfields p) ->
  is_list_field (_get_label_field_type v f) = true \/ i <> "" ->
  exists m, _get_ids_map v f w = inr (m, w) /\ m !! i = Some (pid p).
Proof.
  intros Hnd Hp Hi Hok.
  destruct (get_ids_map_run v f w) as (m & Hrun & Hlook).
  exists m. split; [exact Hrun|]. rewrite Hlook.
  assert (negb (is_list_field (_get_label_field_type v f)) && bool_decide (i = "") = false)
    as ->.
  { destruct Hok as [->|Hne]; [reflexivity|].
    rewrite (bool_decide_eq_false_2 (i = "")) by done. apply andb_false_r. }
  destruct (last (pid <$> List.filter (holds_id v f i) (_stages v (patches_dataset w))))
    as [q|] eqn:Hq.
  - apply last_Some_elem_of, list_elem_of_fmap in Hq as (p' & -> & Hp').
    apply list_elem_of_In, List.filter_In in Hp' as [Hp' Hh].
    apply bool_decide_eq_true in Hh. apply list_elem_of_In in Hp'.
    f_equal. f_equal. unfold view_label_ids, values_unwound in Hnd.
    rewrite <- list_fmap_compose in Hnd.
    by apply (concat_unique_holder _ _ p' p i Hnd).
  - exfalso. apply last_None, fmap_nil_inv in Hq.
    assert (In p (List.filter (holds_id v f i) (_stages v (patches_dataset w)))) as Hin.
    { apply List.filter_In. split; [by apply list_elem_of_In|].
      by apply bool_decide_eq_true. }
    by rewrite Hq in Hin.
Qed.

Lemma get_ids_map_unique_witness :
  exists m,
    _get_ids_map (ex_view ex_dataset id) "F" ex_world = inr (m, ex_world) /\
    m !! "b" = Some "p_b".
Proof.
  apply (get_ids_map_unique (ex_view ex_dataset id) "F" ex_world ex_p_b "b").
  - change (NoDup ["a"; "b"]). apply NoDup_cons. split; [|apply NoDup_singleton].
    intros Hc. apply list_elem_of_singleton in Hc. discriminate.
  - vm_compute. right. by left.
  - vm_compute. by left.
  - by left.
Defined.


(** ** What sync leaves alone *)

Lemma sid_map_field sel f g root : sid <$> map_field sel f g root = sid <$> root.
Proof.
  unfold map_field. rewrite <- list_fmap_compose. apply list_fmap_ext.
  intros k s _. simpl. by destruct (sel s).
Qed.

Lemma sid_set_labels f sample_ids docs root :
  sid <$> apply_set_labels f sample_ids docs root = sid <$> root.
Proof.
  rewrite apply_set_labels_map_labels. unfold map_labels.
  by rewrite <- list_fmap_compose.
Qed.

Lemma sid_delete_labels X f root : sid <$> apply_delete_labels X f root = sid <$> root.
Proof. unfold apply_delete_labels. by rewrite <- list_fmap_compose. Qed.

Lemma sid_root_synced v f ps root : sid <$> root_synced v f ps root = sid <$> root.
Proof.
  unfold root_synced, root_updated. destruct (bool_decide _).
  - by rewrite sid_delete_labels, sid_set_labels.
  - apply sid_set_labels.
Qed.

Lemma sid_roots_synced v fs ps root : sid <$> roots_synced v fs ps root = sid <$> root.
Proof.
  unfold roots_synced. revert root. induction fs as [|f fs IH]; intros root; simpl.
  - reflexivity.
  - by rewrite IH, sid_root_synced.
Qed.

Lemma sid_root_tag_synced v edit_fcn ps fs root :
  sid <$> root_tag_synced v edit_fcn ps fs root = sid <$> root.
Proof.
  unfold root_tag_synced. revert root. induction fs as [|f fs IH]; intros root; simpl.
  - reflexivity.
  - rewrite IH. apply sid_map_field.
Qed.

Lemma sid_root_after_sample_sync sample fs root :
  sid <$> root_after_sample_sync sample fs root = sid <$> root.
Proof.
  unfold root_after_sample_sync. revert root.
  induction fs as [|f fs IH]; intros root; simpl; [reflexivity|].
  by rewrite IH, sid_set_labels.
Qed.

Lemma field_column_map_labels f f' G root :
  f <> f' -> field_column f (map_labels f' G root) = field_column f root.
Proof.
  intros Hne. unfold field_column, map_labels. rewrite <- list_fmap_compose.
  apply list_fmap_ext. intros k s _. simpl. by rewrite lookup_alter_ne.
Qed.

Lemma field_column_set_labels f f' sample_ids docs root :
  f <> f' -> field_column f (apply_set_labels f' sample_ids docs root) = field_column f root.
Proof. intros Hne. rewrite apply_set_labels_map_labels. by apply field_column_map_labels. Qed.

Lemma field_column_delete f f' X root :
  f <> f' -> field_column f (apply_delete_labels X f' root) = field_column f root.
Proof.
  intros Hne. unfold field_column, apply_delete_labels. rewrite <- list_fmap_compose.
  apply list_fmap_ext. intros k s _. simpl. by rewrite lookup_partial_alter_ne.
Qed.

Lemma field_column_root_synced v f f' ps root :
  f <> f' -> field_column f (root_synced v f' ps root) = field_column f root.
Proof.
  intros Hne. unfold root_synced, root_updated. destruct (bool_decide _).
  - by rewrite field_column_delete, field_column_set_labels.
  - by apply field_column_set_labels.
Qed.

Lemma field_column_roots_synced v f fs ps root :
  f ∉ fs -> field_column f (roots_synced v fs ps root) = field_column f root.
Proof.
  unfold roots_synced. revert root. induction fs as [|f' fs IH]; intros root Hf; simpl.
  - reflexivity.
  - apply not_elem_of_cons in Hf as [Hne Hf].
    rewrite IH by done. by apply field_column_root_synced.
Qed.


(** The three entry points of the view never raise and never add,
    remove or reorder samples of the source dataset: after [save],
    [set_values] and [_edit_label_tags] the sample ids of the dataset are
    what they were. *)
Theorem view_sync_keeps_samples v w :
  (forall a, exists w',
      save v a w = inr (tt, w') /\ sid <$> src_root w' = sid <$> src_root w) /\
  (forall field_name write, exists w',
      set_values v field_name write w = inr (tt, w') /\
      sid <$> src_root w' = sid <$> src_root w) /\
  (forall edit_fcn a, exists w',
      _edit_label_tags v edit_fcn a w = inr (tt, w') /\
      sid <$> src_root w' = sid <$> src_root w).
Proof.
  split; [|split].
  - intros a. rewrite save_run. eexists. split; [reflexivity|].
    cbn [src_root]. apply sid_roots_synced.
  - intros field_name write. rewrite set_values_run. eexists. split; [reflexivity|].
    cbn [src_root]. destruct (is_label_field _ _); [apply sid_set_labels|reflexivity].
  - intros edit_fcn a. rewrite edit_label_tags_run. eexists. split; [reflexivity|].
    cbn [src_root]. apply sid_root_tag_synced.
Qed.

(** X4. [save] leaves every field that it does not sync as it is, in every
    sample of the source dataset: a field that is not tracked, or that the
    [fields] argument leaves out, keeps its value. *)
Theorem save_leaves_other_fields v a f w :
  f ∉ sync_fields v (normalize_fields a) ->
  exists w',
    save v a w = inr (tt, w') /\
    field_column f (src_root w') = field_column f (src_root w).
Proof.
  intros Hf. rewrite save_run. eexists. split; [reflexivity|].
  cbn [src_root]. by apply field_column_roots_synced.
Qed.

Lemma save_leaves_other_fields_witness :
  exists w',
    save (ex_view ex_dataset id) NoFields ex_world_deleted = inr (tt, w') /\
    field_column "C" (src_root w') = [Some (Single ex_c)].
Proof.
  destruct (save_leaves_other_fields (ex_view ex_dataset id) NoFields "C" ex_world_deleted)
    as (w' & Hrun & Hcol).
  - vm_compute. intros Hc. apply list_elem_of_singleton in Hc. discriminate.
  - exists w'. split; [exact Hrun|]. rewrite Hcol. reflexivity.
Defined.








Lemma sync_sample_missing v sample pre f post a w0 :
  Forall (fun g => field_well_typed (_get_label_field_type v g) (pfields sample) g = true)
         pre ->
  _get_label_field_type v f = ListType a ->
  pfields sample !! f = None ->
  for_each (pre ++ f :: post) (fun g => _sync_source_sample_field v sample g) w0 =
  inl TypeError.
Proof.
  intros Hpre Hty Hnone. revert w0. induction pre as [|g pre IH]; intros w0.
  - cbn [app for_each]. unfold bind.
    by rewrite (sync_sample_field_missing v sample f w0 a).
  - apply Forall_cons in Hpre as [Hg Hpre]. cbn [app for_each]. unfold bind at 1.
    rewrite sync_sample_field_well_typed by done. by apply IH.
Qed.

(** X6. Saving a patch record raises [TypeError] when a tracked field of a
    list type has no value in the record, as the ground truth of a false
    positive in an evaluation patch: the serialised value is [None], which
    cannot be subscripted. *)
Theorem patch_save_missing_list_field v sample w pre f post a :
  _label_fields v = pre ++ f :: post ->
  Forall (fun g => field_well_typed (_get_label_field_type v g) (pfields sample) g = true)
         pre ->
  _get_label_field_type v f = ListType a ->
  pfields sample !! f = None ->
  PatchView_save v sample w = inl TypeError.
Proof.
  intros Hfs Hpre Hty Hnone.
  unfold PatchView_save, _sync_source_sample, bind at 1. cbn [bind emit modify_patches].
  rewrite Hfs. by eapply sync_sample_missing.
Qed.

Lemma patch_save_missing_list_field_witness :
  PatchView_save ex_eval_view ex_p_fp ex_world = inl TypeError.
Proof.
  apply (patch_save_missing_list_field ex_eval_view ex_p_fp ex_world ["F"] "gt" []
           "detections"); try reflexivity.
  repeat constructor.
Defined.


Lemma delete_keeps_present X f' f root i :
  i ∉ X -> i ∈ root_label_ids f root -> i ∈ root_label_ids f (apply_delete_labels X f' root).
Proof.
  intros HX Hi. unfold root_label_ids in *. rewrite root_labels_delete.
  destruct (decide (f = f')); [|exact Hi].
  apply list_elem_of_fmap in Hi as (l & -> & Hl). apply list_elem_of_fmap_2.
  apply list_elem_of_In, List.filter_In. split; [by apply list_elem_of_In|].
  by apply bool_decide_eq_true.
Qed.

Lemma root_synced_keeps_patched v f f' ps root i :
  (f = f' -> i ∈ agg_label_ids v f ps) ->
  i ∈ root_label_ids f root -> i ∈ root_label_ids f (root_synced v f' ps root).
Proof.
  intros Hpatched Hi. destruct (decide (f = f')) as [<-|Hne];
    [|by rewrite root_label_ids_synced_other].
  unfold root_synced. destruct (bool_decide _).
  - apply delete_keeps_present.
    + unfold root_delete_ids. intros [_ Hn]%elem_of_difference. apply Hn.
      apply elem_of_list_to_set. by apply Hpatched.
    + unfold root_updated. by rewrite root_label_ids_set_labels.
  - unfold root_updated. by rewrite root_label_ids_set_labels.
Qed.

(** X7. [save] never deletes a label that still has a patch: a label id
    that the source dataset holds in a field stays there when the field is not
    synced, or when the patches dataset, as the base save left it, holds the
    id in the field. *)
Theorem save_keeps_patched_labels v a f i w :
  i ∈ root_label_ids f (src_root w) ->
  (f ∈ sync_fields v (normalize_fields a) ->
   i ∈ agg_label_ids v f (super_save v (normalize_fields a) (patches_dataset w))) ->
  exists w', save v a w = inr (tt, w') /\ i ∈ root_label_ids f (src_root w').
Proof.
  intros Hi Hpatched. rewrite save_run. eexists. split; [reflexivity|].
  cbn [src_root].
  set (ps := super_save v (normalize_fields a) (patches_dataset w)) in *.
  revert Hi Hpatched. generalize (src_root w) as root.
  unfold roots_synced.
  induction (sync_fields v (normalize_fields a)) as [|f' fs IH]; intros root Hi Hpatched.
  - exact Hi.
  - cbn [foldl]. apply IH.
    + apply root_synced_keeps_patched; [|exact Hi].
      intros <-. apply Hpatched. by left.
    + intros Hf. apply Hpatched. by right.
Qed.

Lemma save_keeps_patched_labels_witness :
  exists w',
    save (ex_view ex_dataset id) NoFields ex_world_deleted = inr (tt, w') /\
    "a" ∈ root_label_ids "F" (src_root w').
Proof.
  apply (save_keeps_patched_labels (ex_view ex_dataset id) NoFields "F" "a"
           ex_world_deleted).
  - vm_compute. by left.
  - intros _. vm_compute. by left.
Defined.




Lemma update_fields_roots_sync_calls v fs ps root :
  omap update_field (roots_sync_calls v fs ps root) = fs.
Proof.
  revert root. induction fs as [|f fs IH]; intros root; [reflexivity|].
  cbn [roots_sync_calls]. rewrite omap_app, IH. unfold root_sync_calls.
  destruct (bool_decide _); reflexivity.
Qed.

(** X9. The update calls that [save] makes follow the [fields] argument:
    their fields, in the order of the calls, are the requested fields that the
    view tracks, in the order of the request and as often as the request names
    them; without a request they are the tracked fields in their own order. *)
Theorem save_updates_in_request_order v a w :
  exists w' es,
    save v a w = inr (tt, w') /\
    calls w' = calls w ++ BaseViewSave (normalize_fields a) :: es /\
    omap update_field es =
      match normalize_fields a with
      | None => _label_fields v
      | Some fs => List.filter (fun l => bool_decide (l ∈ _label_fields v)) fs
      end.
Proof.
  rewrite save_run. eexists. eexists. split; [reflexivity|].
  cbn [calls]. split; [reflexivity|].
  rewrite update_fields_roots_sync_calls. by destruct (normalize_fields a).
Qed.




(** ** Bulk round trips *)




















(** ** A sync that has nothing to do *)









(** ** Tag edits reach the labels that the view shows *)

Lemma root_labels_map_field_other f sel f' g root :
  f <> f' -> root_labels f (map_field sel f' g root) = root_labels f root.
Proof.
  intros Hne. unfold root_labels, map_field. f_equal.
  rewrite <- list_fmap_compose. apply list_fmap_ext. intros k s _. simpl.
  destruct (sel s); [|reflexivity]. simpl. rewrite field_labels_alter.
  destruct (decide (f = f')); [contradiction|reflexivity].
Qed.

Lemma root_labels_map_field_all f sel g root :
  (forall s, sel s = true) ->
  root_labels f (map_field sel f g root) = g <$> root_labels f root.
Proof.
  intros Hsel. unfold root_labels, map_field.
  change (g <$> ?l) with (List.map g l).
  rewrite List.concat_map. f_equal.
  change (List.map ?h ?l) with (h <$> l).
  rewrite <- !list_fmap_compose. apply list_fmap_ext. intros k s _. simpl.
  rewrite Hsel. simpl. rewrite field_labels_alter.
  destruct (decide (f = f)); [reflexivity|contradiction].
Qed.

Lemma root_labels_tag_synced v edit_fcn ps fs f root :
  is_dataset (_source_collection v) ->
  NoDup fs ->
  root_labels f (root_tag_synced v edit_fcn ps fs root) =
  if decide (f ∈ fs)
  then (fun l => if bool_decide (label_id l ∈ view_label_ids v f ps)
                 then edit_tags edit_fcn l else l) <$> root_labels f root
  else root_labels f root.
Proof.
  intros [Hs Hl] Hnd. unfold root_tag_synced. revert root.
  induction fs as [|f' fs IH]; intros root.
  - simpl. destruct (decide (f ∈ [])) as [H|H]; [by apply elem_of_nil in H|reflexivity].
  - apply NoDup_cons in Hnd as [Hf' Hnd]. cbn [foldl]. rewrite IH by done.
    unfold apply_edit_selected. destruct (decide (f = f')) as [<-|Hne].
    + destruct (decide (f ∈ fs)); [contradiction|].
      destruct (decide (f ∈ f :: fs)) as [|Hn]; [|exfalso; apply Hn; by left].
      rewrite root_labels_map_field_all by apply Hs.
      apply list_fmap_ext. intros k l _. by rewrite Hl.
    + rewrite root_labels_map_field_other by done.
      destruct (decide (f ∈ fs)) as [Hin|Hin];
        destruct (decide (f ∈ f' :: fs)) as [Hc|Hc]; try reflexivity.
      * exfalso. apply Hc. by right.
      * exfalso. apply elem_of_cons in Hc as [?|?]; done.
Qed.

(** X14. When the source collection is the dataset itself and no field is
    named twice, a tag edit through the view applies the edit once to the tags
    of every label of a synced field whose id the view shows, and leaves the
    other labels, and the ids and contents of all labels, as they are. *)
Theorem tag_edit_reaches_shown_labels v edit_fcn a f w :
  is_dataset (_source_collection v) ->
  NoDup (sync_fields v (normalize_fields a)) ->
  f ∈ sync_fields v (normalize_fields a) ->
  exists w',
    _edit_label_tags v edit_fcn a w = inr (tt, w') /\
    root_labels f (src_root w') =
      (fun l => if bool_decide (label_id l ∈ view_label_ids v f (patches_dataset w'))
                then mkLabel (label_id l) (label_body l) (edit_fcn (label_tags l))
                else l) <$> root_labels f (src_root w).
Proof.
  intros Hd Hnd Hf. rewrite edit_label_tags_run. eexists. split; [reflexivity|].
  cbn [src_root patches_dataset]. rewrite root_labels_tag_synced by done.
  destruct (decide _); [reflexivity|contradiction].
Qed.

Lemma tag_edit_reaches_shown_labels_witness :
  exists w',
    _edit_label_tags (ex_view ex_dataset ex_limit1) (add_tag "t") NoFields ex_world
      = inr (tt, w') /\
    root_labels "F" (src_root w') = [mkLabel "a" "cat" ["t"]; ex_b].
Proof.
  destruct (tag_edit_reaches_shown_labels (ex_view ex_dataset ex_limit1) (add_tag "t")
              NoFields "F" ex_world) as (w' & Hrun & Hlabels).
  - split; reflexivity.
  - change (NoDup ["F"]). apply NoDup_singleton.
  - vm_compute. by left.
  - exists w'. split; [exact Hrun|]. rewrite Hlabels.
    assert (patches_dataset w' = [ex_p_a; ex_p_b]) as ->.
    { rewrite edit_label_tags_run in Hrun. by injection Hrun as <-. }
    by vm_compute.
Defined.


End Patches.
